(** * Conway's Game of Life on a sparse grid: a shallow embedding of
    [src/main.cpp] and the properties of its simulation core.

    The embedding follows the C++ source function by function:
    - [int] coordinates are integers of [Z] with the 32-bit two's-complement
      wrap-around written out ([wrap32]); [long long] likewise ([wrap64]);
    - [CellGrid = std::unordered_map<Coord, bool, CoordHash>] is a
      [gmap (Z * Z) bool], [CandidateSet] a [gset (Z * Z)];
    - range-for loops over the containers are [map_fold] and [set_fold]
      (the containers promise no iteration order, and none of the results
      below depends on one);
    - function-local [static] variables become fields of an explicit state;
    - [float] values are IEEE-754 binary32 numbers ([spec_float] with
      precision 24 and maximal exponent 128). *)

From Stdlib Require Import ZArith Lia SpecFloat.
From stdpp Require Import gmap.

Local Open Scope Z_scope.

(** ** Machine integers *)

Definition INT_MIN : Z := -2147483648.
Definition INT_MAX : Z := 2147483647.
Definition LLONG_MIN : Z := -9223372036854775808.
Definition LLONG_MAX : Z := 9223372036854775807.

(** Reduction of an integer to the signed 32-bit range. *)
Definition wrap32 (z : Z) : Z := (z + 2 ^ 31) mod 2 ^ 32 - 2 ^ 31.

(** Reduction of an integer to the signed 64-bit range. *)
Definition wrap64 (z : Z) : Z := (z + 2 ^ 63) mod 2 ^ 64 - 2 ^ 63.

(** [a + b] on [int]. *)
Definition int_add (a b : Z) : Z := wrap32 (a + b).

(** [a - b] on [int]. *)
Definition int_sub (a b : Z) : Z := wrap32 (a - b).

(** [a + b] on [long long]. *)
Definition llong_add (a b : Z) : Z := wrap64 (a + b).

Definition in_int (z : Z) : Prop := INT_MIN <= z <= INT_MAX.
Definition in_llong (z : Z) : Prop := LLONG_MIN <= z <= LLONG_MAX.

(** ** Coordinates and grids *)

(** [using Coord = std::pair<int, int>]. *)
Abbreviation Coord := (Z * Z)%type.

(** [using CellGrid = std::unordered_map<Coord, bool, CoordHash>]. *)
Abbreviation CellGrid := (gmap Coord bool).

(** [using CandidateSet = std::unordered_set<Coord, CoordHash>]. *)
Abbreviation CandidateSet := (gset Coord).

Definition in_int_coord (c : Coord) : Prop := in_int c.1 /\ in_int c.2.

(** Every key of the grid is a pair of [int]s. *)
Definition coords_in_range (grid : CellGrid) : Prop :=
  forall c, is_Some (grid !! c) -> in_int_coord c.

(** Every stored marker is [true]: the program only ever writes
    [grid[c] = true]. *)
Definition all_marked (grid : CellGrid) : Prop :=
  forall c v, grid !! c = Some v -> v = true.

(** [grid.count(c)]: the number of entries with key [c], 0 or 1. *)
Definition grid_count (grid : CellGrid) (c : Coord) : Z :=
  match grid !! c with Some _ => 1 | None => 0 end.

(** A cell is alive when it is a key of the grid. *)
Definition is_alive (grid : CellGrid) (c : Coord) : Prop := is_Some (grid !! c).

#[global] Instance is_alive_dec grid c : Decision (is_alive grid c).
Proof. unfold is_alive. apply _. Defined.

(** The table [neighbour_offsets] of both [count_active_neighbours] and
    [update_grid]. *)
Definition neighbour_offsets : list Coord :=
  [ (-1, -1); (0, -1); (1, -1);
    (-1,  0);          (1,  0);
    (-1,  1); (0,  1); (1,  1) ].

(** [{cell.first + offset.first, cell.second + offset.second}]. *)
Definition offset_coord (cell offset : Coord) : Coord :=
  (int_add cell.1 offset.1, int_add cell.2 offset.2).

(** ** The step function *)

(** [int count_active_neighbours(const CellGrid& grid, const Coord& cell)]. *)
Definition count_active_neighbours (grid : CellGrid) (cell : Coord) : Z :=
  fold_left
    (fun count offset =>
       let neighbour := offset_coord cell offset in
       if decide (grid_count grid neighbour <> 0) then int_add count 1 else count)
    neighbour_offsets 0.

(** First loop of [update_grid]: every live cell and its eight offsets are
    inserted into [candidates]. *)
Definition insert_with_neighbours (coord : Coord) (candidates : CandidateSet)
  : CandidateSet :=
  fold_left
    (fun cands offset => {[ offset_coord coord offset ]} ∪ cands)
    neighbour_offsets ({[ coord ]} ∪ candidates).

Definition collect_candidates (grid : CellGrid) : CandidateSet :=
  map_fold (fun coord _ candidates => insert_with_neighbours coord candidates)
           ∅ grid.

(** Body of the second loop of [update_grid]. *)
Definition decide_cell (grid : CellGrid) (coord : Coord) (new_grid : CellGrid)
  : CellGrid :=
  let neighbours := count_active_neighbours grid coord in
  let is_alive := negb (grid_count grid coord =? 0) in
  if is_alive then
    if (neighbours =? 2) || (neighbours =? 3) then <[ coord := true ]> new_grid
    else new_grid
  else
    if neighbours =? 3 then <[ coord := true ]> new_grid
    else new_grid.

(** The test of that body: whether [coord] is written to [new_grid]. *)
Definition cell_lives (grid : CellGrid) (coord : Coord) : bool :=
  let neighbours := count_active_neighbours grid coord in
  if negb (grid_count grid coord =? 0)
  then (neighbours =? 2) || (neighbours =? 3)
  else neighbours =? 3.

Definition next_grid (grid : CellGrid) (candidates : CandidateSet) : CellGrid :=
  set_fold (decide_cell grid) ∅ candidates.

(** [void update_grid(CellGrid& grid, long long& generation)]: the two
    references are returned as a pair. *)
Definition update_grid (grid : CellGrid) (generation : Z) : CellGrid * Z :=
  let candidates := collect_candidates grid in
  let new_grid := next_grid grid candidates in
  (new_grid, llong_add generation 1).

(** The step function of the specification: the grid part of [update_grid]. *)
Definition advance (grid : CellGrid) : CellGrid := (update_grid grid 0).1.

(** Builds a grid from a list of cells, as painting them one by one does. *)
Definition grid_of_cells (cells : list Coord) : CellGrid :=
  foldr (fun c g => <[ c := true ]> g) ∅ cells.

(** ** Painting: [handle_mouse_interaction] *)

(** The button state the function polls in one frame. *)
Record MouseInput := {
  left_pressed : bool;   (* IsMouseButtonPressed(MOUSE_BUTTON_LEFT) *)
  left_down : bool;      (* IsMouseButtonDown(MOUSE_BUTTON_LEFT) *)
  left_released : bool;  (* IsMouseButtonReleased(MOUSE_BUTTON_LEFT) *)
  right_down : bool      (* IsMouseButtonDown(MOUSE_BUTTON_RIGHT) *)
}.

(** The three [static] locals of [handle_mouse_interaction]. *)
Record Stroke := {
  is_painting : bool;
  paint_mode_is_drawing : bool;
  cells_modified_this_stroke : CandidateSet
}.

(** Their values before the first call. *)
Definition stroke_init : Stroke :=
  {| is_painting := false;
     paint_mode_is_drawing := false;
     cells_modified_this_stroke := ∅ |}.

Definition set_painting (b : bool) (s : Stroke) : Stroke :=
  {| is_painting := b;
     paint_mode_is_drawing := paint_mode_is_drawing s;
     cells_modified_this_stroke := cells_modified_this_stroke s |}.

(** [void handle_mouse_interaction(CellGrid& grid, ...)]; the cell under the
    pointer, [current_cell_coord], is taken already resolved. *)
Definition handle_mouse_interaction
    (grid : CellGrid) (s : Stroke) (mouse : MouseInput)
    (current_cell_coord : Coord) : CellGrid * Stroke :=
  if left_pressed mouse then
    if right_down mouse then (grid, s)
    else if decide (grid_count grid current_cell_coord <> 0) then
      (delete current_cell_coord grid,
       {| is_painting := true;
          paint_mode_is_drawing := false;
          cells_modified_this_stroke := {[ current_cell_coord ]} ∪ ∅ |})
    else
      (<[ current_cell_coord := true ]> grid,
       {| is_painting := true;
          paint_mode_is_drawing := true;
          cells_modified_this_stroke := {[ current_cell_coord ]} ∪ ∅ |})
  else if is_painting s && left_down mouse then
    if right_down mouse then (grid, set_painting false s)
    else if decide (current_cell_coord ∈ cells_modified_this_stroke s) then
      (grid, s)
    else
      let grid' :=
        if paint_mode_is_drawing s then
          if decide (grid_count grid current_cell_coord <> 0) then grid
          else <[ current_cell_coord := true ]> grid
        else
          if decide (grid_count grid current_cell_coord <> 0)
          then delete current_cell_coord grid
          else grid in
      (grid',
       {| is_painting := is_painting s;
          paint_mode_is_drawing := paint_mode_is_drawing s;
          cells_modified_this_stroke :=
            {[ current_cell_coord ]} ∪ cells_modified_this_stroke s |})
  else if is_painting s && left_released mouse then
    (grid, set_painting false s)
  else if negb (left_down mouse) && is_painting s then
    (grid, set_painting false s)
  else (grid, s).

(** The three commands of the interaction adapter, as the frames that
    trigger them. *)
Definition press_frame : MouseInput :=
  {| left_pressed := true; left_down := true;
     left_released := false; right_down := false |}.

Definition drag_frame : MouseInput :=
  {| left_pressed := false; left_down := true;
     left_released := false; right_down := false |}.

Definition release_frame : MouseInput :=
  {| left_pressed := false; left_down := false;
     left_released := true; right_down := false |}.

Definition toggle_start (c : Coord) (st : CellGrid * Stroke) : CellGrid * Stroke :=
  handle_mouse_interaction st.1 st.2 press_frame c.

Definition continue_stroke (c : Coord) (st : CellGrid * Stroke) : CellGrid * Stroke :=
  handle_mouse_interaction st.1 st.2 drag_frame c.

(** The pointer is still somewhere when the button is released: [c] is
    the cell under it. *)
Definition end_stroke (c : Coord) (st : CellGrid * Stroke) : CellGrid * Stroke :=
  handle_mouse_interaction st.1 st.2 release_frame c.

(** ** Single-precision numbers *)

Abbreviation float := spec_float.

Definition f32_add : float -> float -> float := SFadd 24 128.
Definition f32_sub : float -> float -> float := SFsub 24 128.
Definition f32_div : float -> float -> float := SFdiv 24 128.
Definition f32_lt : float -> float -> bool := SFltb.

(** [(float)n] for an [int] [n]. *)
Definition f32_of_int (n : Z) : float := binary_normalize 24 128 n 0 false.

(** The literals of the source, each the binary32 number nearest to the
    decimal written. *)
Definition f_0_0 : float := S754_zero false.                       (* 0.0f *)
Definition f_1_0 : float := S754_finite false 8388608 (-23).       (* 1.0f *)
Definition f_2_0 : float := S754_finite false 8388608 (-22).       (* 2.0f *)
Definition f_0_01 : float := S754_finite false 10737418 (-30).     (* 0.01f *)
Definition f_0_05 : float := S754_finite false 13421773 (-28).     (* 0.05f *)
Definition f_0_2 : float := S754_finite false 13421773 (-26).      (* 0.2f *)

(** Whether the positive normal number [f] lies within half a unit in the
    last place of the fraction [p / q]. *)
Definition nearest_to (f : float) (p q : Z) : bool :=
  match f with
  | S754_finite false m e =>
      (2 ^ 23 <=? Z.pos m) && (Z.pos m <? 2 ^ 24) && (e <? 0)
      && (2 * Z.abs (Z.pos m * q - p * 2 ^ (- e)) <=? q)
  | _ => false
  end.

Definition SCREEN_WIDTH : Z := 1000.
Definition SCREEN_HEIGHT : Z := 700.
Definition SPEED_ADJUST : float := f_0_05.

(** ** Controls: [handle_ui_input] *)

Record Camera2D := {
  offset : float * float;
  target : float * float;
  rotation : float;
  zoom : float
}.

(** The variables [main] owns and passes by reference. *)
Record Engine := {
  paused : bool;
  step_rate : float;
  grid : CellGrid;
  camera : Camera2D;
  generation : Z
}.

(** [IsKeyPressed] for the five keys the function polls. *)
Record Keys := {
  KEY_SPACE : bool;
  KEY_S : bool;
  KEY_UP : bool;
  KEY_DOWN : bool;
  KEY_R : bool
}.

(** [step_rate -= SPEED_ADJUST; if (step_rate < 0.01f) step_rate = 0.01f;]. *)
Definition rate_faster (step_rate : float) : float :=
  let step_rate := f32_sub step_rate SPEED_ADJUST in
  if f32_lt step_rate f_0_01 then f_0_01 else step_rate.

(** [step_rate += SPEED_ADJUST; if (step_rate > 2.0f) step_rate = 2.0f;]. *)
Definition rate_slower (step_rate : float) : float :=
  let step_rate := f32_add step_rate SPEED_ADJUST in
  if f32_lt f_2_0 step_rate then f_2_0 else step_rate.

(** The rates the two keys can produce from the default rate. *)
Inductive reachable_rate : float -> Prop :=
  | reach_default : reachable_rate f_0_2
  | reach_faster r : reachable_rate r -> reachable_rate (rate_faster r)
  | reach_slower r : reachable_rate r -> reachable_rate (rate_slower r).

(** Equality of the representations. *)
Definition float_eqb (a b : float) : bool :=
  match a, b with
  | S754_zero s, S754_zero t => Bool.eqb s t
  | S754_infinity s, S754_infinity t => Bool.eqb s t
  | S754_nan, S754_nan => true
  | S754_finite s m e, S754_finite t n f =>
      Bool.eqb s t && Pos.eqb m n && Z.eqb e f
  | _, _ => false
  end.

(** Closes [seen] under the two keys, starting from the rates in [todo]. *)
Fixpoint close_rates (fuel : nat) (todo seen : list float) : list float :=
  match fuel with
  | O => seen
  | S fuel =>
      match todo with
      | [] => seen
      | r :: todo =>
          if existsb (float_eqb r) seen then close_rates fuel todo seen
          else close_rates fuel (rate_faster r :: rate_slower r :: todo)
                           (r :: seen)
      end
  end.

Definition known_rates : list float :=
  Eval vm_compute in close_rates 1000 [f_0_2] [].

(** A rate of the list is within the bounds and both keys lead back into
    the list. *)
Definition rate_checked (r : float) : bool :=
  negb (f32_lt r f_0_01) && negb (f32_lt f_2_0 r)
  && existsb (float_eqb (rate_faster r)) known_rates
  && existsb (float_eqb (rate_slower r)) known_rates.

Definition default_camera : Camera2D :=
  {| offset := (f32_div (f32_of_int SCREEN_WIDTH) f_2_0,
                f32_div (f32_of_int SCREEN_HEIGHT) f_2_0);
     target := (f_0_0, f_0_0);
     rotation := f_0_0;
     zoom := f_1_0 |}.

(** [void handle_ui_input(bool& paused, float& step_rate, CellGrid& grid,
    Camera2D& camera, long long& generation)]: the five [if]s in order. *)
Definition handle_ui_input (keys : Keys) (e : Engine) : Engine :=
  let paused := if KEY_SPACE keys then negb (paused e) else paused e in
  let '(grid, generation) :=
    if KEY_S keys then update_grid (grid e) (generation e)
    else (grid e, generation e) in
  let step_rate := if KEY_UP keys then rate_faster (step_rate e) else step_rate e in
  let step_rate := if KEY_DOWN keys then rate_slower step_rate else step_rate in
  if KEY_R keys then
    {| paused := true;
       step_rate := f_0_2;
       grid := ∅;
       camera := default_camera;
       generation := 0 |}
  else
    {| paused := paused;
       step_rate := step_rate;
       grid := grid;
       camera := camera e;
       generation := generation |}.

(** The state [main] constructs before its loop. *)
Definition initial_engine : Engine :=
  {| paused := true;
     step_rate := f_0_2;
     grid := ∅;
     camera := default_camera;
     generation := 0 |}.

(** The reset command: a frame in which only [R] is pressed. *)
Definition reset_keys : Keys :=
  {| KEY_SPACE := false; KEY_S := false; KEY_UP := false;
     KEY_DOWN := false; KEY_R := true |}.

(** ** The hash of a coordinate pair *)

(** [std::size_t] is a 64-bit unsigned integer. *)
Definition size_t_of (z : Z) : Z := z mod 2 ^ 64.

(** [std::hash<int>] is left to the C++ implementation; libstdc++ and libc++
    both return the argument converted to [std::size_t]. *)
Definition std_hash_int (x : Z) : Z := size_t_of x.

(** [CoordHash::operator()], over the implementation's [std::hash<int>]. *)
Definition CoordHash (std_hash : Z -> Z) (p : Coord) : Z :=
  let hash_1 := std_hash p.1 in
  let hash_2 := std_hash p.2 in
  Z.lxor hash_1 (size_t_of (Z.shiftl hash_2 1)).

(** ** Notions of the specification *)

(** [d] is one of the eight cells around [c], on the plane of [int]
    coordinates. *)
Definition moore_adjacent (c d : Coord) : Prop :=
  d <> c /\ Z.abs (int_sub d.1 c.1) <= 1 /\ Z.abs (int_sub d.2 c.2) <= 1.

(** The same on the unbounded plane of the specification. *)
Definition plane_adjacent (c d : Coord) : Prop :=
  d <> c /\ Z.abs (d.1 - c.1) <= 1 /\ Z.abs (d.2 - c.2) <= 1.

#[global] Instance moore_adjacent_dec c d : Decision (moore_adjacent c d).
Proof. unfold moore_adjacent. apply _. Defined.

#[global] Instance plane_adjacent_dec c d : Decision (plane_adjacent c d).
Proof. unfold plane_adjacent. apply _. Defined.

(** The number of live cells among the eight around [c]. *)
Definition alive_neighbours (grid : CellGrid) (c : Coord) : nat :=
  size (filter (moore_adjacent c) (dom grid)).

(** The rule B3/S23. *)
Definition life_rule (alive : Prop) (n : nat) : Prop :=
  (alive /\ (n = 2%nat \/ n = 3%nat)) \/ (~ alive /\ n = 3%nat).

(** The candidate set of the specification: the live cells and the cells
    around them. *)
Definition is_candidate (grid : CellGrid) (c : Coord) : Prop :=
  exists k, is_alive grid k /\ (c = k \/ c ∈ offset_coord k <$> neighbour_offsets).

(** The grid moved by [d]: every entry is written again at its key plus [d]. *)
Definition translate (d : Coord) (grid : CellGrid) : CellGrid :=
  map_fold (fun k v moved => <[ offset_coord k d := v ]> moved) ∅ grid.

(** The opposite displacement. *)
Definition opp_coord (d : Coord) : Coord := (- d.1, - d.2).

(** Three horizontally adjacent live cells, centred at [c]. *)
Definition blinker (c : Coord) : CellGrid :=
  grid_of_cells [offset_coord c (-1, 0); c; offset_coord c (1, 0)].

(** Three vertically adjacent live cells, centred at [c]. *)
Definition blinker_upright (c : Coord) : CellGrid :=
  grid_of_cells [offset_coord c (0, -1); c; offset_coord c (0, 1)].

(** ** Runs of several steps and whole strokes *)

(** [k] calls of [update_grid] on the same two variables. *)
Definition run_steps (k : nat) (st : CellGrid * Z) : CellGrid * Z :=
  Nat.iter k (fun st => update_grid st.1 st.2) st.

(** The stroke state during a stroke of the given mode that has touched the
    cells [t]. *)
Definition painting (drawing : bool) (t : CandidateSet) : Stroke :=
  {| is_painting := true;
     paint_mode_is_drawing := drawing;
     cells_modified_this_stroke := t |}.

(** The frames of a drag over the cells [cs], in order. *)
Definition drag_over (cs : list Coord) (st : CellGrid * Stroke)
  : CellGrid * Stroke :=
  foldl (fun st c => continue_stroke c st) st cs.

(** A press on [c] followed by a drag over [cs]. *)
Definition stroke_over (c : Coord) (cs : list Coord) (st : CellGrid * Stroke)
  : CellGrid * Stroke :=
  drag_over cs (toggle_start c st).

(** Frames of [handle_mouse_interaction], each with its buttons and the cell
    under the pointer. *)
Definition mouse_frames (frames : list (MouseInput * Coord))
    (st : CellGrid * Stroke) : CellGrid * Stroke :=
  foldl (fun st f => handle_mouse_interaction st.1 st.2 f.1 f.2) st frames.

(** ** The camera: [handle_camera_input] *)

Abbreviation Vector2 := (float * float)%type.

Definition f32_mul : float -> float -> float := SFmul 24 128.
Definition f32_eqb : float -> float -> bool := SFeqb.
Definition f32_le : float -> float -> bool := SFleb.

Definition f_m1_0 : float := S754_finite true 8388608 (-23).       (* -1.0f *)
Definition f_8_0 : float := S754_finite false 8388608 (-20).       (* 8.0f *)
Definition f_0_125 : float := S754_finite false 8388608 (-26).     (* 0.125f *)
Definition f_10_0 : float := S754_finite false 10485760 (-20).     (* 10.0f *)

Definition ZOOM_INCREMENT : float := f_0_125.
Definition BASE_CELL_SIZE : float := f_10_0.

(** [Vector2Scale] and [Vector2Add] of raymath: componentwise. *)
Definition Vector2Scale (v : Vector2) (scale : float) : Vector2 :=
  (f32_mul v.1 scale, f32_mul v.2 scale).

Definition Vector2Add (v1 v2 : Vector2) : Vector2 :=
  (f32_add v1.1 v2.1, f32_add v1.2 v2.2).

(** [void handle_camera_input(Camera2D& camera)]. The four values it polls
    are arguments: [IsMouseButtonDown(MOUSE_BUTTON_RIGHT)], [GetMouseDelta()],
    [GetMouseWheelMove()] and [GetMousePosition()]; raylib's
    [GetScreenToWorld2D] is a parameter. *)
Definition handle_camera_input
    (GetScreenToWorld2D : Vector2 -> Camera2D -> Vector2)
    (right_is_down : bool) (mouse_delta : Vector2) (wheel : float)
    (mouse_position : Vector2) (camera : Camera2D) : Camera2D :=
  let camera :=
    if right_is_down then
      let delta := Vector2Scale mouse_delta (f32_div f_m1_0 (zoom camera)) in
      {| offset := offset camera;
         target := Vector2Add (target camera) delta;
         rotation := rotation camera;
         zoom := zoom camera |}
    else camera in
  if negb (f32_eqb wheel f_0_0) then
    let mouse_world_pos := GetScreenToWorld2D mouse_position camera in
    let zoom := f32_add (zoom camera) (f32_mul wheel ZOOM_INCREMENT) in
    let zoom := if f32_lt zoom ZOOM_INCREMENT then ZOOM_INCREMENT else zoom in
    let zoom := if f32_lt f_8_0 zoom then f_8_0 else zoom in
    {| offset := mouse_position;
       target := mouse_world_pos;
       rotation := rotation camera;
       zoom := zoom |}
  else camera.

(** ** From the screen to a cell: [screen_to_world_coord] *)

(** [floor] of a finite number, as an integer. *)
Definition floor_Z (f : float) : option Z :=
  match f with
  | S754_zero _ => Some 0
  | S754_finite s m e =>
      let v := if s then Z.neg m else Z.pos m in
      Some (if 0 <=? e then v * 2 ^ e else v / 2 ^ (- e))
  | _ => None
  end.

(** [static_cast<int>(floor(f))]. The floor of a finite [float] is again a
    [float], so the cast sees the integer itself. Outside the range of
    [int], and for infinities and NaN, C++ leaves the cast undefined; the
    conversion instruction of x86 gives [INT_MIN] there, and so does this
    definition. *)
Definition int_of_floor (f : float) : Z :=
  match floor_Z f with
  | Some z => if (INT_MIN <=? z) && (z <=? INT_MAX) then z else INT_MIN
  | None => INT_MIN
  end.

(** [Coord screen_to_world_coord(Vector2 screen_pos, const Camera2D& camera,
    float current_cell_size)]. *)
Definition screen_to_world_coord
    (GetScreenToWorld2D : Vector2 -> Camera2D -> Vector2)
    (screen_pos : Vector2) (camera : Camera2D) (current_cell_size : float)
  : Coord :=
  let world_pos := GetScreenToWorld2D screen_pos camera in
  (int_of_floor (f32_div world_pos.1 current_cell_size),
   int_of_floor (f32_div world_pos.2 current_cell_size)).

(** ** The timer: [is_time_to_step] *)

(** [bool is_time_to_step(float rate_in_seconds)]. Clock readings are ticks
    in [Z]; [seconds] turns a difference of readings into the
    [std::chrono::duration<float>] count. The [static] [last_time] is [None]
    before the first call, which initialises it with a reading of its own,
    [first_reading]. The new [last_time] is returned with the answer. *)
Definition is_time_to_step (seconds : Z -> float)
    (last_time : option Z) (first_reading current_time : Z)
    (rate_in_seconds : float) : bool * option Z :=
  let last_time := match last_time with Some t => t | None => first_reading end in
  let elapsed := seconds (current_time - last_time) in
  if f32_le rate_in_seconds elapsed then (true, Some current_time)
  else (false, Some last_time).

(** ** One turn of the loop of [main] *)

(** Everything the loop polls in one turn. *)
Record Polled := {
  buttons : MouseInput;
  mouse_delta : Vector2;       (* GetMouseDelta() *)
  wheel_move : float;          (* GetMouseWheelMove() *)
  mouse_position : Vector2;    (* GetMousePosition() *)
  keys : Keys;
  clock_first : Z;             (* the reading that initialises last_time *)
  clock_now : Z                (* the reading current_time *)
}.

(** The variables of [main] with the [static] locals of the functions it
    calls. *)
Record App := {
  engine : Engine;
  stroke : Stroke;
  last_time : option Z
}.

Definition initial_app : App :=
  {| engine := initial_engine; stroke := stroke_init; last_time := None |}.

(** The state changes of one turn of [while (!WindowShouldClose())]:
    [handle_camera_input], [handle_mouse_interaction], [handle_ui_input] and
    the timed [update_grid]; the drawing calls that follow change
    nothing. *)
Definition frame (GetScreenToWorld2D : Vector2 -> Camera2D -> Vector2)
    (seconds : Z -> float) (inp : Polled) (app : App) : App :=
  let e := engine app in
  let current_cell_size := BASE_CELL_SIZE in
  let camera1 :=
    handle_camera_input GetScreenToWorld2D (right_down (buttons inp))
      (mouse_delta inp) (wheel_move inp) (mouse_position inp) (camera e) in
  let current_cell_coord :=
    screen_to_world_coord GetScreenToWorld2D (mouse_position inp) camera1
      current_cell_size in
  let painted :=
    handle_mouse_interaction (grid e) (stroke app) (buttons inp)
      current_cell_coord in
  let e2 :=
    handle_ui_input (keys inp)
      {| paused := paused e;
         step_rate := step_rate e;
         grid := painted.1;
         camera := camera1;
         generation := generation e |} in
  if negb (paused e2) then
    let timer :=
      is_time_to_step seconds (last_time app) (clock_first inp) (clock_now inp)
        (step_rate e2) in
    if timer.1 then
      let stepped := update_grid (grid e2) (generation e2) in
      {| engine :=
           {| paused := paused e2;
              step_rate := step_rate e2;
              grid := stepped.1;
              camera := camera e2;
              generation := stepped.2 |};
         stroke := painted.2;
         last_time := timer.2 |}
    else {| engine := e2; stroke := painted.2; last_time := timer.2 |}
  else {| engine := e2; stroke := painted.2; last_time := last_time app |}.



(** ** Symmetries of the plane *)

(** The grid with every entry written again at the image of its key under
    [sigma]. *)
Definition image (sigma : Coord -> Coord) (grid : CellGrid) : CellGrid :=
  map_fold (fun k v moved => <[ sigma k := v ]> moved) ∅ grid.

(** Rows and columns exchanged. *)
Definition transpose_coord (c : Coord) : Coord := (c.2, c.1).

(** Left and right exchanged, on [int]: the column [x] goes to [-x]. *)
Definition mirror_coord (c : Coord) : Coord := (int_sub 0 c.1, c.2).

(** The same on offsets. *)
Definition mirror_offset (o : Coord) : Coord := (- o.1, o.2).

(** * Properties *)

(** ** Concrete runs *)

Example block_is_still :
  advance (grid_of_cells [(0,0); (1,0); (0,1); (1,1)])
  = grid_of_cells [(0,0); (1,0); (0,1); (1,1)].
Proof. vm_compute. reflexivity. Qed.

Example lonely_cell_dies : advance (grid_of_cells [(5, -7)]) = ∅.
Proof. vm_compute. reflexivity. Qed.

Example empty_is_fixed : advance ∅ = ∅.
Proof. reflexivity. Qed.

Example blinker_origin_turns : advance (blinker (0, 0)) = blinker_upright (0, 0).
Proof. vm_compute. reflexivity. Qed.

Example default_camera_offset :
  offset default_camera
  = (S754_finite false 16384000 (-15), S754_finite false 11468800 (-15)).
Proof. vm_compute. reflexivity. Qed.

(** ** Arithmetic of [int] *)

Ltac wrap_arith :=
  unfold in_int_coord, in_int, offset_coord, int_add, int_sub, wrap32,
    INT_MIN, INT_MAX in *;
  simpl in *;
  change (2 ^ 31) with 2147483648 in *;
  change (2 ^ 32) with 4294967296 in *;
  Z.div_mod_to_equations; lia.

Lemma wrap32_in_int z : in_int (wrap32 z).
Proof. wrap_arith. Qed.

Lemma wrap32_id z : in_int z -> wrap32 z = z.
Proof. intros; wrap_arith. Qed.

Lemma offset_coord_in_int c o : in_int_coord (offset_coord c o).
Proof. split; apply wrap32_in_int. Qed.

(** Stepping by an offset and by its opposite are inverse to each other. *)
Lemma offset_coord_back c o :
  in_int_coord c -> offset_coord (offset_coord c o) (opp_coord o) = c.
Proof.
  destruct c as [x y], o as [a b]; intros [Hx Hy].
  unfold offset_coord; simpl; f_equal; wrap_arith.
Qed.

Lemma offset_coord_origin c : in_int_coord c -> offset_coord (0, 0) c = c.
Proof.
  destruct c as [x y]; intros [Hx Hy].
  unfold offset_coord; simpl; f_equal; wrap_arith.
Qed.

Lemma neighbour_offsets_spec o :
  o ∈ neighbour_offsets <->
  (-1 <= o.1 <= 1) /\ (-1 <= o.2 <= 1) /\ o <> (0, 0).
Proof.
  destruct o as [a b]; unfold neighbour_offsets; simpl; split.
  - rewrite !elem_of_cons, elem_of_nil.
    intros H; repeat destruct H as [H|H]; try done;
      simplify_eq; repeat split; try lia; discriminate.
  - intros (Ha & Hb & Hne).
    assert (a = -1 \/ a = 0 \/ a = 1) as Ha' by lia.
    assert (b = -1 \/ b = 0 \/ b = 1) as Hb' by lia.
    clear Ha Hb.
    destruct Ha' as [-> | [-> | ->]]; destruct Hb' as [-> | [-> | ->]];
      try done; set_solver.
Qed.

Lemma neighbour_offsets_opp o :
  o ∈ neighbour_offsets -> opp_coord o ∈ neighbour_offsets.
Proof.
  rewrite !neighbour_offsets_spec; destruct o as [a b]; simpl.
  intros (Ha & Hb & Hne); repeat split; try lia.
  intros [= ? ?]; apply Hne; f_equal; lia.
Qed.

(** The eight cells around [c], as the source enumerates them. *)
Lemma moore_adjacent_offsets c d :
  in_int_coord c -> in_int_coord d ->
  moore_adjacent c d <-> d ∈ offset_coord c <$> neighbour_offsets.
Proof.
  destruct c as [x y], d as [u v]; intros [Hx Hy] [Hu Hv].
  rewrite list_elem_of_fmap; unfold moore_adjacent; simpl in *; split.
  - intros (Hne & Ha & Hb).
    exists (int_sub u x, int_sub v y); split.
    + unfold offset_coord; simpl; f_equal; wrap_arith.
    + apply neighbour_offsets_spec; simpl; repeat split; try lia.
      intros [= Ha0 Hb0]; apply Hne; f_equal; wrap_arith.
  - intros ([a b] & Heq & Ho).
    apply neighbour_offsets_spec in Ho as (Ha & Hb & Hne); simpl in *.
    unfold offset_coord in Heq; simpl in Heq.
    injection Heq as Hu' Hv'; repeat split.
    + intros [= H1 H2]; apply Hne; f_equal; wrap_arith.
    + wrap_arith.
    + wrap_arith.
Qed.

(** Away from the limits of [int], these are the eight cells around [c] on
    the unbounded plane. *)
Lemma moore_adjacent_plane c d :
  INT_MIN < c.1 < INT_MAX -> INT_MIN < c.2 < INT_MAX -> in_int_coord d ->
  moore_adjacent c d <-> plane_adjacent c d.
Proof.
  destruct c as [x y], d as [u v]; intros Hx Hy [Hu Hv].
  unfold moore_adjacent, plane_adjacent; simpl in *.
  assert (Z.abs (int_sub u x) <= 1 <-> Z.abs (u - x) <= 1) as -> by wrap_arith.
  assert (Z.abs (int_sub v y) <= 1 <-> Z.abs (v - y) <= 1) as -> by wrap_arith.
  reflexivity.
Qed.

Lemma offset_coord_inj c o1 o2 :
  o1 ∈ neighbour_offsets -> o2 ∈ neighbour_offsets ->
  offset_coord c o1 = offset_coord c o2 -> o1 = o2.
Proof.
  rewrite !neighbour_offsets_spec.
  destruct c as [x y], o1 as [a1 b1], o2 as [a2 b2]; simpl.
  intros (? & ? & _) (? & ? & _) [= E1 E2]; f_equal; wrap_arith.
Qed.

Lemma NoDup_neighbours c : NoDup (offset_coord c <$> neighbour_offsets).
Proof.
  apply NoDup_fmap_2_strong.
  - intros; eauto using offset_coord_inj.
  - compute_done.
Qed.

(** ** The two loops of [update_grid] *)

Lemma grid_count_alive (grid : CellGrid) (c : Coord) : grid_count grid c <> 0 <-> is_alive grid c.
Proof.
  unfold grid_count, is_alive. destruct (grid !! c); split; done.
Qed.

Lemma decide_cell_lives (grid : CellGrid) (c : Coord) (new_grid : CellGrid) :
  decide_cell grid c new_grid
  = if cell_lives grid c then <[ c := true ]> new_grid else new_grid.
Proof.
  unfold decide_cell, cell_lives.
  destruct (negb (grid_count grid c =? 0));
    [destruct ((_ =? 2) || (_ =? 3)) | destruct (_ =? 3)]; reflexivity.
Qed.

Lemma elem_of_insert_offsets (coord : Coord) (l : list Coord)
    (cands : CandidateSet) (c : Coord) :
  c ∈ fold_left (fun cs offset => {[ offset_coord coord offset ]} ∪ cs) l cands
  <-> c ∈ offset_coord coord <$> l \/ c ∈ cands.
Proof.
  revert cands; induction l as [|o l IH]; intros cands; simpl.
  - rewrite elem_of_nil. tauto.
  - rewrite IH, elem_of_cons, elem_of_union, elem_of_singleton. tauto.
Qed.

Lemma elem_of_insert_with_neighbours (coord : Coord) (cands : CandidateSet)
    (c : Coord) :
  c ∈ insert_with_neighbours coord cands
  <-> c = coord \/ c ∈ offset_coord coord <$> neighbour_offsets \/ c ∈ cands.
Proof.
  unfold insert_with_neighbours.
  rewrite elem_of_insert_offsets, elem_of_union, elem_of_singleton. tauto.
Qed.

(** The first loop builds the candidate set of the specification. *)
Lemma elem_of_collect_candidates (grid : CellGrid) (c : Coord) :
  c ∈ collect_candidates grid <-> is_candidate grid c.
Proof.
  unfold collect_candidates, is_candidate, is_alive. revert c. revert grid.
  apply (map_fold_weak_ind (fun (r : CandidateSet) (m : CellGrid) =>
    forall c, c ∈ r <->
      exists k, is_Some (m !! k) /\
                (c = k \/ c ∈ offset_coord k <$> neighbour_offsets))).
  - intros c; split; [set_solver|].
    intros (k & Hk & _). rewrite lookup_empty in Hk. by destruct Hk.
  - intros i x m r Hi IH c.
    rewrite elem_of_insert_with_neighbours, IH; split.
    + intros [-> | [Hc | (k & Hk & Hc)]].
      * exists i; rewrite lookup_insert_eq; eauto.
      * exists i; rewrite lookup_insert_eq; eauto.
      * exists k; split; [|done].
        rewrite lookup_insert_ne; [done|]. intros ->. rewrite Hi in Hk.
        by destruct Hk.
    + intros (k & Hk & Hc). destruct (decide (i = k)) as [-> | Hne].
      * tauto.
      * rewrite lookup_insert_ne in Hk by done. eauto.
Qed.

(** The second loop writes [true] at the candidates that pass the test and
    nothing else. *)
Lemma lookup_next_grid (grid : CellGrid) (cands : CandidateSet) (c : Coord) :
  next_grid grid cands !! c
  = if decide (c ∈ cands /\ cell_lives grid c = true) then Some true else None.
Proof.
  unfold next_grid. revert c. revert cands.
  apply (set_fold_ind_L (fun (r : CellGrid) (X : CandidateSet) =>
    forall c, r !! c
      = if decide (c ∈ X /\ cell_lives grid c = true) then Some true else None)).
  - intros c. rewrite lookup_empty.
    destruct (decide _) as [[H _]|]; [set_solver|done].
  - intros x X r Hx IH c. rewrite decide_cell_lives.
    destruct (decide (x = c)) as [-> | Hne].
    + destruct (cell_lives grid c) eqn:Hl.
      * rewrite lookup_insert_eq. rewrite decide_True; [done|set_solver].
      * rewrite IH. rewrite !decide_False; [done| |]; intros [? ?]; done.
    + assert (r' : (if cell_lives grid x then <[ x := true ]> r else r) !! c
                   = r !! c).
      { destruct (cell_lives grid x); [by rewrite lookup_insert_ne|done]. }
      rewrite r', IH.
      destruct (decide (c ∈ X /\ _)) as [[H1 H2]|Hn].
      * rewrite decide_True; [done|set_solver].
      * rewrite decide_False; [done|]. intros [H1 H2]. apply Hn; split; [|done].
        apply elem_of_union in H1 as [H1|H1]; [|done].
        apply elem_of_singleton in H1. congruence.
Qed.

Lemma lookup_update_grid (grid : CellGrid) (gen : Z) (c : Coord) :
  (update_grid grid gen).1 !! c
  = if decide (c ∈ collect_candidates grid /\ cell_lives grid c = true)
    then Some true else None.
Proof. unfold update_grid; simpl. apply lookup_next_grid. Qed.


Lemma candidate_in_int (grid : CellGrid) (c : Coord) :
  coords_in_range grid -> is_candidate grid c -> in_int_coord c.
Proof.
  intros Hwf (k & Hk & [-> | Hc]); [by apply Hwf|].
  apply list_elem_of_fmap in Hc as (o & -> & _). apply offset_coord_in_int.
Qed.

Lemma update_grid_in_range (grid : CellGrid) (gen : Z) :
  coords_in_range grid -> coords_in_range (update_grid grid gen).1.
Proof.
  intros Hwf c. rewrite lookup_update_grid.
  destruct (decide _) as [[Hc _]|]; [|by intros [? ?]].
  intros _. apply elem_of_collect_candidates in Hc.
  eauto using candidate_in_int.
Qed.

(** ** Counting neighbours *)

Lemma count_fold (grid : CellGrid) (c : Coord) (l : list Coord) (n : Z) :
  0 <= n -> n + Z.of_nat (length l) <= INT_MAX ->
  fold_left
    (fun count offset =>
       let neighbour := offset_coord c offset in
       if decide (grid_count grid neighbour <> 0) then int_add count 1 else count)
    l n
  = n + Z.of_nat (length (filter (is_alive grid) (offset_coord c <$> l))).
Proof.
  revert n; induction l as [|o l IH]; intros n Hn Hmax.
  - simpl. lia.
  - change (length (o :: l)) with (S (length l)) in Hmax.
    rewrite Nat2Z.inj_succ in Hmax.
    rewrite fmap_cons. cbn [fold_left].
    destruct (decide (grid_count grid (offset_coord c o) <> 0)) as [Ha|Ha];
      rewrite grid_count_alive in Ha.
    + rewrite filter_cons_True by done.
      change (length (?x :: ?k)) with (S (length k)).
      assert (int_add n 1 = n + 1) as ->
        by (apply wrap32_id; unfold in_int, INT_MIN, INT_MAX in *; lia).
      rewrite IH by lia. lia.
    + rewrite filter_cons_False by done. rewrite IH by lia. lia.
Qed.

(** The loop of [count_active_neighbours] counts the live cells among the
    eight it visits. *)
Lemma count_active_neighbours_length (grid : CellGrid) (c : Coord) :
  count_active_neighbours grid c
  = Z.of_nat (length (filter (is_alive grid)
                             (offset_coord c <$> neighbour_offsets))).
Proof.
  unfold count_active_neighbours. rewrite count_fold; [lia|lia|].
  unfold INT_MAX; simpl; lia.
Qed.

Lemma alive_neighbours_length (grid : CellGrid) (c : Coord) :
  coords_in_range grid -> in_int_coord c ->
  alive_neighbours grid c
  = length (filter (is_alive grid) (offset_coord c <$> neighbour_offsets)).
Proof.
  intros Hwf Hc. unfold alive_neighbours.
  rewrite <- (size_list_to_set (C := CandidateSet))
    by (apply NoDup_filter, NoDup_neighbours).
  f_equal. apply set_eq; intros d.
  rewrite elem_of_filter, elem_of_dom, elem_of_list_to_set, list_elem_of_filter.
  unfold is_alive; split.
  - intros [Hadj Hd]; split; [done|].
    apply moore_adjacent_offsets; auto.
  - intros [Hd Hin]; split; [|done].
    apply moore_adjacent_offsets; auto.
Qed.

(** The count of the source is the number of live Moore neighbours. *)
Lemma count_active_neighbours_spec (grid : CellGrid) (c : Coord) :
  coords_in_range grid -> in_int_coord c ->
  count_active_neighbours grid c = Z.of_nat (alive_neighbours grid c).
Proof.
  intros. rewrite count_active_neighbours_length, alive_neighbours_length; done.
Qed.

(** The test of the second loop is the rule B3/S23. *)
Lemma cell_lives_rule (grid : CellGrid) (c : Coord) :
  coords_in_range grid -> in_int_coord c ->
  cell_lives grid c = true
  <-> life_rule (is_alive grid c) (alive_neighbours grid c).
Proof.
  intros Hwf Hc. unfold cell_lives, life_rule.
  rewrite count_active_neighbours_spec by done.
  destruct (decide (is_alive grid c)) as [Ha|Ha].
  - assert ((grid_count grid c =? 0) = false) as ->.
    { apply Z.eqb_neq. by apply grid_count_alive. }
    simpl. rewrite orb_true_iff, !Z.eqb_eq. split.
    + intros Hn. left; split; [done|lia].
    + intros [[_ Hn]|[Hd _]]; [lia|done].
  - assert ((grid_count grid c =? 0) = true) as ->.
    { apply Z.eqb_eq. destruct (decide (grid_count grid c = 0)); [done|].
      exfalso. by apply Ha, grid_count_alive. }
    simpl. rewrite Z.eqb_eq. split.
    + intros Hn. right; split; [done|lia].
    + intros [[Hl _]|[_ Hn]]; [done|lia].
Qed.

(** A cell outside the candidate set is dead and has no live neighbour. *)
Lemma not_candidate_isolated (grid : CellGrid) (c : Coord) :
  coords_in_range grid -> in_int_coord c -> ~ is_candidate grid c ->
  ~ is_alive grid c /\ alive_neighbours grid c = 0%nat.
Proof.
  intros Hwf Hc Hn; split.
  - intros Ha. apply Hn. exists c; auto.
  - rewrite alive_neighbours_length by done.
    destruct (filter _ _) as [|d l] eqn:Hf; [done|]. exfalso.
    assert (Hd : d ∈ filter (is_alive grid) (offset_coord c <$> neighbour_offsets))
      by (rewrite Hf; left).
    apply list_elem_of_filter in Hd as [Hd Hin].
    apply list_elem_of_fmap in Hin as (o & -> & Ho).
    apply Hn. exists (offset_coord c o); split; [done|right].
    apply list_elem_of_fmap. exists (opp_coord o); split.
    + by rewrite offset_coord_back.
    + by apply neighbour_offsets_opp.
Qed.

(** ** The update rule *)

(** C1. For every grid of [int] cells and every cell [c]: [c] is alive after
    [update_grid] exactly when it was alive with two or three live Moore
    neighbours, or dead with three; the candidates are the live cells with
    their eight neighbours, and a cell outside them is dead afterwards. *)
Theorem update_grid_life_rule (grid : CellGrid) (gen : Z) (c : Coord) :
  coords_in_range grid -> in_int_coord c ->
  (is_alive (update_grid grid gen).1 c
   <-> life_rule (is_alive grid c) (alive_neighbours grid c))
  /\ (c ∈ collect_candidates grid <-> is_candidate grid c)
  /\ (~ is_candidate grid c -> ~ is_alive (update_grid grid gen).1 c).
Proof.
  intros Hwf Hc. unfold is_alive at 1 3. rewrite lookup_update_grid.
  split; [|split].
  - destruct (decide _) as [[H1 H2]|Hn].
    + split; [intros _|eauto]. by apply cell_lives_rule.
    + split; [by intros [? ?]|]. intros Hr. exfalso. apply Hn.
      split; [|by apply cell_lives_rule].
      destruct (decide (c ∈ collect_candidates grid)) as [|Hnc]; [done|].
      rewrite elem_of_collect_candidates in Hnc.
      destruct (not_candidate_isolated grid c Hwf Hc Hnc) as [Hd H0].
      rewrite H0 in Hr. destruct Hr as [[_ [?|?]]|[_ ?]]; lia.
  - apply elem_of_collect_candidates.
  - intros Hnc. rewrite decide_False; [by intros [? ?]|].
    intros [H1 _]. by apply Hnc, elem_of_collect_candidates.
Qed.

Lemma three_in_a_row_in_range :
  coords_in_range (grid_of_cells [(0, 0); (1, 0); (2, 0)]).
Proof.
  intros c [v Hv]. unfold grid_of_cells in Hv; simpl in Hv.
  apply lookup_insert_Some in Hv as [[<- _]|[_ Hv]]; [by vm_compute|].
  apply lookup_insert_Some in Hv as [[<- _]|[_ Hv]]; [by vm_compute|].
  apply lookup_insert_Some in Hv as [[<- _]|[_ Hv]]; [by vm_compute|].
  by rewrite lookup_empty in Hv.
Qed.

Lemma update_grid_life_rule_witness :
  let g := grid_of_cells [(0, 0); (1, 0); (2, 0)] in
  coords_in_range g /\ in_int_coord (1, 1) /\
  ((is_alive (update_grid g 0).1 (1, 1)
    <-> life_rule (is_alive g (1, 1)) (alive_neighbours g (1, 1)))
   /\ ((1, 1) ∈ collect_candidates g <-> is_candidate g (1, 1))
   /\ (~ is_candidate g (1, 1) -> ~ is_alive (update_grid g 0).1 (1, 1))).
Proof.
  split; [apply three_in_a_row_in_range|].
  split; [by vm_compute|].
  apply (update_grid_life_rule (grid_of_cells [(0, 0); (1, 0); (2, 0)]) 0 (1, 1)).
  - apply three_in_a_row_in_range.
  - by vm_compute.
Defined.

(** On the unbounded plane the count is the same for every cell strictly
    inside the range of [int]. *)
Lemma alive_neighbours_plane (grid : CellGrid) (c : Coord) :
  coords_in_range grid ->
  INT_MIN < c.1 < INT_MAX -> INT_MIN < c.2 < INT_MAX ->
  alive_neighbours grid c = size (filter (plane_adjacent c) (dom grid)).
Proof.
  intros Hwf Hx Hy. unfold alive_neighbours. f_equal.
  apply set_eq; intros d. rewrite !elem_of_filter, elem_of_dom.
  split; intros [Hadj Hd]; (split; [|done]);
    apply (moore_adjacent_plane c d); auto.
Qed.

(** ** The generation counter *)

(** C2. For every grid, the empty one included, and every counter value [n]
    that a [long long] can hold below its maximum, one call of [update_grid]
    leaves the counter at exactly [n + 1]. *)
Theorem update_grid_generation (grid : CellGrid) (n : Z) :
  LLONG_MIN <= n < LLONG_MAX ->
  (update_grid grid n).2 = n + 1 /\ update_grid ∅ n = (∅, n + 1).
Proof.
  intros Hn.
  assert (llong_add n 1 = n + 1) as E.
  { unfold llong_add, wrap64, LLONG_MIN, LLONG_MAX in *.
    change (2 ^ 63) with 9223372036854775808.
    change (2 ^ 64) with 18446744073709551616.
    Z.div_mod_to_equations; lia. }
  unfold update_grid; simpl. rewrite E. split; reflexivity.
Qed.

Lemma update_grid_generation_witness :
  LLONG_MIN <= 41 < LLONG_MAX /\
  (update_grid (grid_of_cells [(0, 0); (1, 0)]) 41).2 = 42 /\
  update_grid ∅ 41 = (∅, 42).
Proof.
  split; [by vm_compute|].
  apply (update_grid_generation (grid_of_cells [(0, 0); (1, 0)]) 41).
  by vm_compute.
Defined.

(** ** The limits of [int] *)

Lemma neighbour_is_candidate (grid : CellGrid) (k o : Coord) :
  is_alive grid k -> o ∈ neighbour_offsets ->
  offset_coord k o ∈ collect_candidates grid.
Proof.
  intros Hk Ho. apply elem_of_collect_candidates. exists k; split; [done|right].
  apply list_elem_of_fmap. eauto.
Qed.

Lemma neighbour_is_counted (grid : CellGrid) (c o : Coord) :
  is_alive grid (offset_coord c o) -> o ∈ neighbour_offsets ->
  1 <= count_active_neighbours grid c.
Proof.
  intros Ha Ho. rewrite count_active_neighbours_length.
  assert (Hin : offset_coord c o
                ∈ filter (is_alive grid) (offset_coord c <$> neighbour_offsets)).
  { apply list_elem_of_filter; split; [done|].
    apply list_elem_of_fmap. eauto. }
  destruct (filter _ _); [by apply elem_of_nil in Hin|].
  change (length (?x :: ?k)) with (S (length k)). lia.
Qed.

(** C10. Coordinates are 32-bit: a live cell on the column [INT_MAX] has
    the cell of the same row on the column [INT_MIN] among its candidates,
    and is counted as a neighbour of that cell, though the two are not
    adjacent on the unbounded plane; likewise from [INT_MIN] to [INT_MAX],
    and for rows. *)
Theorem int_limits_wrap (grid : CellGrid) (z : Z) :
  in_int z ->
  (is_alive grid (INT_MAX, z) ->
     offset_coord (INT_MAX, z) (1, 0) = (INT_MIN, z)
     /\ (INT_MIN, z) ∈ collect_candidates grid
     /\ 1 <= count_active_neighbours grid (INT_MIN, z))
  /\ (is_alive grid (INT_MIN, z) ->
     offset_coord (INT_MIN, z) (-1, 0) = (INT_MAX, z)
     /\ (INT_MAX, z) ∈ collect_candidates grid
     /\ 1 <= count_active_neighbours grid (INT_MAX, z))
  /\ (is_alive grid (z, INT_MAX) ->
     offset_coord (z, INT_MAX) (0, 1) = (z, INT_MIN)
     /\ (z, INT_MIN) ∈ collect_candidates grid
     /\ 1 <= count_active_neighbours grid (z, INT_MIN))
  /\ (is_alive grid (z, INT_MIN) ->
     offset_coord (z, INT_MIN) (0, -1) = (z, INT_MAX)
     /\ (z, INT_MAX) ∈ collect_candidates grid
     /\ 1 <= count_active_neighbours grid (z, INT_MAX))
  /\ ~ plane_adjacent (INT_MAX, z) (INT_MIN, z)
  /\ ~ plane_adjacent (z, INT_MAX) (z, INT_MIN).
Proof.
  intros Hz.
  assert (E1 : offset_coord (INT_MAX, z) (1, 0) = (INT_MIN, z))
    by (unfold offset_coord; simpl; f_equal; wrap_arith).
  assert (E2 : offset_coord (INT_MIN, z) (-1, 0) = (INT_MAX, z))
    by (unfold offset_coord; simpl; f_equal; wrap_arith).
  assert (E3 : offset_coord (z, INT_MAX) (0, 1) = (z, INT_MIN))
    by (unfold offset_coord; simpl; f_equal; wrap_arith).
  assert (E4 : offset_coord (z, INT_MIN) (0, -1) = (z, INT_MAX))
    by (unfold offset_coord; simpl; f_equal; wrap_arith).
  repeat split; try done.
  - rewrite <- E1. apply neighbour_is_candidate; [done|compute_done].
  - apply (neighbour_is_counted grid _ (-1, 0)); [by rewrite E2|compute_done].
  - rewrite <- E2. apply neighbour_is_candidate; [done|compute_done].
  - apply (neighbour_is_counted grid _ (1, 0)); [by rewrite E1|compute_done].
  - rewrite <- E3. apply neighbour_is_candidate; [done|compute_done].
  - apply (neighbour_is_counted grid _ (0, -1)); [by rewrite E4|compute_done].
  - rewrite <- E4. apply neighbour_is_candidate; [done|compute_done].
  - apply (neighbour_is_counted grid _ (0, 1)); [by rewrite E3|compute_done].
  - intros (_ & H & _). simpl in H. unfold INT_MIN, INT_MAX in H. lia.
  - intros (_ & _ & H). simpl in H. unfold INT_MIN, INT_MAX in H. lia.
Qed.

Lemma int_limits_wrap_witness :
  in_int 0 /\
  (INT_MIN, 0) ∈ collect_candidates (grid_of_cells [(INT_MAX, 0)]) /\
  1 <= count_active_neighbours (grid_of_cells [(INT_MAX, 0)]) (INT_MIN, 0).
Proof.
  assert (H0 : in_int 0) by (by vm_compute).
  split; [exact H0|].
  destruct (int_limits_wrap (grid_of_cells [(INT_MAX, 0)]) 0 H0) as [H _].
  destruct H as (_ & Hc & Hn); [|exact (conj Hc Hn)].
  exists true. vm_compute. reflexivity.
Defined.

(** Three live cells on the last column give birth on the first one. *)
Example birth_across_the_limit :
  advance (grid_of_cells [(INT_MAX, -1); (INT_MAX, 0); (INT_MAX, 1)])
  = grid_of_cells [(INT_MAX - 1, 0); (INT_MAX, 0); (INT_MIN, 0)].
Proof. vm_compute. reflexivity. Qed.

(** ** Painting strokes *)

(** A cell already in the touched set is left alone for the rest of the
    stroke. *)
Lemma continue_stroke_touched (c : Coord) (st : CellGrid * Stroke) :
  c ∈ cells_modified_this_stroke st.2 -> continue_stroke c st = st.
Proof.
  destruct st as [g [p m s]]; simpl; intros Hc.
  unfold continue_stroke, handle_mouse_interaction; simpl.
  destruct p; simpl; [|done]. by rewrite decide_True.
Qed.

(** While painting, the cell under the pointer is in the touched set after
    the call. *)
Lemma continue_stroke_marks (c : Coord) (st : CellGrid * Stroke) :
  is_painting st.2 = true ->
  c ∈ cells_modified_this_stroke (continue_stroke c st).2.
Proof.
  destruct st as [g [p m s]]; simpl; intros ->.
  unfold continue_stroke, handle_mouse_interaction; simpl.
  destruct (decide (c ∈ s)); simpl; [done|].
  apply elem_of_union_l, elem_of_singleton_2. reflexivity.
Qed.

(** C4. In every state, a second [continue_stroke] on the same cell changes
    nothing: neither the grid nor the stroke state. *)
Theorem continue_stroke_idempotent (c : Coord) (st : CellGrid * Stroke) :
  continue_stroke c (continue_stroke c st) = continue_stroke c st.
Proof.
  destruct (is_painting st.2) eqn:Hp.
  - apply continue_stroke_touched, continue_stroke_marks, Hp.
  - destruct st as [g [p m s]]; simpl in Hp; subst p. reflexivity.
Qed.

(** [toggle_start] looks at the grid only: the stroke state it finds has no
    effect on the outcome. *)
Lemma toggle_start_fresh (c : Coord) (g : CellGrid) (s s' : Stroke) :
  toggle_start c (g, s) = toggle_start c (g, s').
Proof. reflexivity. Qed.

Lemma end_stroke_grid (r : Coord) (st : CellGrid * Stroke) :
  (end_stroke r st).1 = st.1.
Proof.
  destruct st as [g [p m s]].
  unfold end_stroke, handle_mouse_interaction; simpl. by destruct p.
Qed.

Lemma toggle_start_grid (c : Coord) (st : CellGrid * Stroke) :
  (toggle_start c st).1
  = if decide (is_alive st.1 c) then delete c st.1 else <[ c := true ]> st.1.
Proof.
  destruct st as [g s]; unfold toggle_start, handle_mouse_interaction; simpl.
  destruct (decide (grid_count g c <> 0)) as [H|H];
    rewrite grid_count_alive in H; simpl.
  - by rewrite decide_True.
  - by rewrite decide_False.
Qed.

(** C5. A press on a live cell removes it, a press on a dead cell adds it,
    and a second press on the same cell in a later stroke gives back the
    grid one started from. *)
Theorem toggle_twice_restores (g : CellGrid) (s : Stroke) (c r : Coord) :
  all_marked g ->
  (is_alive g c -> ~ is_alive (toggle_start c (g, s)).1 c)
  /\ (~ is_alive g c -> is_alive (toggle_start c (g, s)).1 c)
  /\ (toggle_start c (end_stroke r (toggle_start c (g, s)))).1 = g.
Proof.
  intros Hm. rewrite !toggle_start_grid, end_stroke_grid, toggle_start_grid.
  simpl. unfold is_alive.
  destruct (decide (is_Some (g !! c))) as [[v Hv]|Hd].
  - split; [intros _; rewrite lookup_delete_eq; by intros [? ?]|].
    split; [intros H; destruct H; eauto|].
    rewrite decide_False by (rewrite lookup_delete_eq; by intros [? ?]).
    rewrite insert_delete_eq. apply insert_id.
    by rewrite (Hm c v Hv) in Hv.
  - split; [done|]. split; [rewrite lookup_insert_eq; eauto|].
    rewrite decide_True by (rewrite lookup_insert_eq; eauto).
    apply delete_insert_id. by apply eq_None_not_Some.
Qed.

Lemma toggle_twice_restores_witness :
  all_marked (grid_of_cells [(3, 4)]) /\
  (toggle_start (3, 4)
     (end_stroke (9, 9)
        (toggle_start (3, 4) (grid_of_cells [(3, 4)], stroke_init)))).1
  = grid_of_cells [(3, 4)].
Proof.
  assert (Hm : all_marked (grid_of_cells [(3, 4)])).
  { intros c v Hv. unfold grid_of_cells in Hv; simpl in Hv.
    apply lookup_insert_Some in Hv as [[_ <-]|[_ Hv]]; [done|].
    by rewrite lookup_empty in Hv. }
  split; [exact Hm|].
  apply (toggle_twice_restores (grid_of_cells [(3, 4)]) stroke_init (3, 4) (9, 9) Hm).
Defined.

(** C8, as the source has it. A press restarts the stroke whatever the
    state: it acts as [end_stroke] followed by [toggle_start], leaves the
    adapter painting with the pressed cell alone in the touched set, takes
    the mode from the cell as it finds it, and toggles the cell. *)
Theorem toggle_start_restarts (c r : Coord) (st : CellGrid * Stroke) :
  toggle_start c st = toggle_start c (end_stroke r st)
  /\ is_painting (toggle_start c st).2 = true
  /\ cells_modified_this_stroke (toggle_start c st).2 = {[ c ]}
  /\ paint_mode_is_drawing (toggle_start c st).2
     = negb (bool_decide (is_alive st.1 c))
  /\ (is_alive (toggle_start c st).1 c <-> ~ is_alive st.1 c).
Proof.
  destruct st as [g s]. split.
  { destruct s as [p m t]; unfold end_stroke; simpl.
    destruct p; reflexivity. }
  unfold toggle_start, handle_mouse_interaction, is_alive; simpl.
  destruct (decide (grid_count g c <> 0)) as [H|H];
    rewrite grid_count_alive in H; unfold is_alive in H; simpl.
  - rewrite bool_decide_eq_true_2 by done. rewrite lookup_delete_eq.
    repeat split; try done; try apply union_empty_r_L; by intros [? ?].
  - rewrite bool_decide_eq_false_2 by done. rewrite lookup_insert_eq.
    repeat split; try done; try apply union_empty_r_L; eauto.
Qed.

(** A press while a stroke is under way is not ignored: here the second
    press on the cell just drawn starts an erasing stroke and removes it. *)
Lemma nested_toggle_start_not_ignored :
  let st := toggle_start (0, 0) (∅, stroke_init) in
  is_painting st.2 = true
  /\ toggle_start (0, 0) st <> st
  /\ st.1 = grid_of_cells [(0, 0)]
  /\ (toggle_start (0, 0) st).1 = ∅
  /\ paint_mode_is_drawing st.2 = true
  /\ paint_mode_is_drawing (toggle_start (0, 0) st).2 = false.
Proof.
  simpl. repeat split; try (vm_compute; reflexivity).
  intros H. apply (f_equal (fun p => paint_mode_is_drawing p.2)) in H.
  vm_compute in H. discriminate.
Qed.

(** ** Reset *)

(** C7. Whatever the state and whatever else is pressed in the frame, a
    frame with [R] pressed leaves exactly the state [main] starts from. *)
Theorem reset_restores_initial (e : Engine) (space s up down : bool) :
  handle_ui_input
    {| KEY_SPACE := space; KEY_S := s; KEY_UP := up; KEY_DOWN := down;
       KEY_R := true |} e
  = initial_engine
  /\ handle_ui_input reset_keys e = initial_engine.
Proof.
  unfold handle_ui_input; simpl. split; [|reflexivity].
  by destruct s.
Qed.

(** ** The step rate *)

Example literals_are_nearest :
  nearest_to f_0_01 1 100 = true /\ nearest_to f_0_05 5 100 = true
  /\ nearest_to f_0_2 2 10 = true /\ nearest_to f_1_0 1 1 = true
  /\ nearest_to f_2_0 2 1 = true.
Proof. vm_compute. repeat split. Qed.

(** Four presses of [Up] from the default rate reach the lower bound, and a
    fifth stays there. *)
Example faster_from_default :
  Nat.iter 3 rate_faster f_0_2 = S754_finite false 13421775 (-28)
  /\ Nat.iter 4 rate_faster f_0_2 = f_0_01
  /\ Nat.iter 5 rate_faster f_0_2 = f_0_01.
Proof. vm_compute. repeat split. Qed.

(** Thirty-seven presses of [Down] from the default rate reach the upper
    bound, and one more stays there. *)
Example slower_from_default :
  Nat.iter 36 rate_slower f_0_2 = S754_finite false 16777209 (-23)
  /\ Nat.iter 37 rate_slower f_0_2 = f_2_0
  /\ Nat.iter 38 rate_slower f_0_2 = f_2_0.
Proof. vm_compute. repeat split. Qed.

Lemma float_eqb_eq (a b : float) : float_eqb a b = true -> a = b.
Proof.
  destruct a as [s|s| |s m e], b as [t|t| |t n f]; simpl; try discriminate.
  - by intros ->%Bool.eqb_prop.
  - by intros ->%Bool.eqb_prop.
  - done.
  - rewrite !andb_true_iff.
    intros [[->%Bool.eqb_prop ->%Pos.eqb_eq] ->%Z.eqb_eq]. done.
Qed.

Lemma known_rate_elem (r : float) :
  existsb (float_eqb r) known_rates = true -> r ∈ known_rates.
Proof.
  intros H. apply existsb_exists in H as (x & Hx & ->%float_eqb_eq).
  by apply list_elem_of_In.
Qed.

Lemma known_rates_checked (r : float) :
  r ∈ known_rates -> rate_checked r = true.
Proof.
  assert (H : forallb rate_checked known_rates = true)
    by (vm_compute; reflexivity).
  intros Hr. rewrite forallb_forall in H. by apply H, list_elem_of_In.
Qed.

(** The default rate and the 159 other rates the keys lead to: the list is
    closed under both keys and stays within the bounds. *)
Lemma reachable_rate_known (r : float) : reachable_rate r -> r ∈ known_rates.
Proof.
  induction 1 as [|r _ IH|r _ IH].
  - apply known_rate_elem. vm_compute. reflexivity.
  - apply known_rates_checked in IH. unfold rate_checked in IH.
    rewrite !andb_true_iff in IH. apply known_rate_elem. tauto.
  - apply known_rates_checked in IH. unfold rate_checked in IH.
    rewrite !andb_true_iff in IH. apply known_rate_elem. tauto.
Qed.

(** Every rate the program can be at lies between 0.01 and 2.0. *)
Lemma reachable_rate_in_bounds (r : float) :
  reachable_rate r -> f32_lt r f_0_01 = false /\ f32_lt f_2_0 r = false.
Proof.
  intros Hr. apply reachable_rate_known, known_rates_checked in Hr.
  unfold rate_checked in Hr. rewrite !andb_true_iff, !negb_true_iff in Hr.
  tauto.
Qed.

(** C6. For every current rate: [Up] subtracts 0.05 and [Down] adds 0.05 in
    single precision; when the difference is below 0.01 the new rate is
    exactly 0.01, when the sum is above 2.0 it is exactly 2.0; so the rate
    after [Up] is never below 0.01 and the rate after [Down] never above
    2.0. No case fails. *)
Theorem rate_adjust_saturates (r : float) :
  rate_faster r
  = (if f32_lt (f32_sub r f_0_05) f_0_01 then f_0_01 else f32_sub r f_0_05)
  /\ rate_slower r
  = (if f32_lt f_2_0 (f32_add r f_0_05) then f_2_0 else f32_add r f_0_05)
  /\ f32_lt (rate_faster r) f_0_01 = false
  /\ f32_lt f_2_0 (rate_slower r) = false.
Proof.
  unfold rate_faster, rate_slower, SPEED_ADJUST.
  split; [reflexivity|]. split; [reflexivity|]. split.
  - destruct (f32_lt (f32_sub r f_0_05) f_0_01) eqn:E; [reflexivity|exact E].
  - destruct (f32_lt f_2_0 (f32_add r f_0_05)) eqn:E; [reflexivity|exact E].
Qed.

(** ** The coordinate hash *)

Ltac bitwise :=
  apply Z.bits_inj'; intros ? ?; rewrite ?Z.lxor_spec;
  repeat match goal with |- context [Z.testbit ?a ?n] =>
    destruct (Z.testbit a n) end; reflexivity.

(** [v ^ (v << 1)] determines [v]: bit 0 is kept, and each further bit is
    the XOR of two neighbouring bits of [v]. *)
Lemma xor_shift_inj (u v : Z) :
  0 <= u < 2 ^ 64 -> 0 <= v < 2 ^ 64 ->
  Z.lxor u (size_t_of (Z.shiftl u 1)) = Z.lxor v (size_t_of (Z.shiftl v 1)) ->
  u = v.
Proof.
  intros Hu Hv H. apply Z.bits_inj'. intros n Hn.
  pattern n. apply natlike_ind; [| |exact Hn].
  - apply (f_equal (fun t => Z.testbit t 0)) in H.
    unfold size_t_of in H.
    rewrite !Z.lxor_spec, !Z.mod_pow2_bits_low, !Z.shiftl_spec_low in H by lia.
    by rewrite !xorb_false_r in H.
  - intros k Hk IH. destruct (decide (Z.succ k < 64)) as [Hlt|Hge].
    + apply (f_equal (fun t => Z.testbit t (Z.succ k))) in H.
      unfold size_t_of in H.
      rewrite !Z.lxor_spec, !Z.mod_pow2_bits_low, !Z.shiftl_spec in H by lia.
      replace (Z.succ k - 1) with k in H by lia. rewrite IH in H.
      destruct (Z.testbit u (Z.succ k)), (Z.testbit v (Z.succ k)),
        (Z.testbit v k); simpl in H; congruence.
    + rewrite <- (Z.mod_small u (2 ^ 64)), <- (Z.mod_small v (2 ^ 64)) by lia.
      rewrite !Z.mod_pow2_bits_high by lia. reflexivity.
Qed.

Section CoordHash.
(** Any [std::hash<int>] with values in [std::size_t]. *)
Variable std_hash : Z -> Z.
Hypothesis std_hash_size_t : forall x, 0 <= std_hash x < 2 ^ 64.

(** The hashes of a pair and of the swapped pair agree exactly when the
    two coordinates have the same [std::hash]. *)
Lemma CoordHash_swap_iff (a b : Z) :
  CoordHash std_hash (a, b) = CoordHash std_hash (b, a)
  <-> std_hash a = std_hash b.
Proof.
  unfold CoordHash; simpl. split; [|by intros ->].
  set (x := std_hash a). set (y := std_hash b).
  set (sx := size_t_of (Z.shiftl x 1)). set (sy := size_t_of (Z.shiftl y 1)).
  intros H. apply xor_shift_inj; [apply std_hash_size_t..|].
  fold x y sx sy.
  assert (E1 : Z.lxor x sx = Z.lxor (Z.lxor x sy) (Z.lxor sx sy)) by bitwise.
  assert (E2 : Z.lxor y sy = Z.lxor (Z.lxor y sx) (Z.lxor sx sy)) by bitwise.
  rewrite E1, E2, H. reflexivity.
Qed.
End CoordHash.

Lemma std_hash_int_size_t (x : Z) : 0 <= std_hash_int x < 2 ^ 64.
Proof. unfold std_hash_int, size_t_of. apply Z.mod_pos_bound. lia. Qed.

Lemma std_hash_int_inj (a b : Z) :
  in_int a -> in_int b -> std_hash_int a = std_hash_int b -> a = b.
Proof.
  unfold std_hash_int, size_t_of, in_int, INT_MIN, INT_MAX.
  change (2 ^ 64) with 18446744073709551616.
  intros Ha Hb H. Z.div_mod_to_equations. lia.
Qed.

(** C9, as the source has it. With the [std::hash<int>] of libstdc++ and
    libc++, the hashes of [(a, b)] and [(b, a)] differ for all [int]s
    [a <> b]; pairs that are not swaps of each other can collide. *)
Theorem CoordHash_swapped_differ (a b : Z) :
  in_int a -> in_int b -> a <> b ->
  CoordHash std_hash_int (a, b) <> CoordHash std_hash_int (b, a).
Proof.
  intros Ha Hb Hne H. apply Hne.
  apply CoordHash_swap_iff in H; [|apply std_hash_int_size_t].
  by apply std_hash_int_inj.
Qed.

Lemma CoordHash_swapped_differ_witness :
  in_int 1 /\ in_int 2 /\ 1 <> 2 /\
  CoordHash std_hash_int (1, 2) <> CoordHash std_hash_int (2, 1).
Proof.
  assert (H1 : in_int 1) by (by vm_compute).
  assert (H2 : in_int 2) by (by vm_compute).
  assert (H3 : 1 <> 2) by discriminate.
  exact (conj H1 (conj H2 (conj H3 (CoordHash_swapped_differ 1 2 H1 H2 H3)))).
Defined.

(** The swapped pairs [(1, 2)] and [(2, 1)] hash to 5 and to 0. *)
Lemma CoordHash_swap_no_collision :
  CoordHash std_hash_int (1, 2) = 5 /\ CoordHash std_hash_int (2, 1) = 0
  /\ ~ (forall a b : Z, a <> b ->
          CoordHash std_hash_int (a, b) = CoordHash std_hash_int (b, a)).
Proof.
  split; [reflexivity|]. split; [reflexivity|].
  intros H. specialize (H 1 2 ltac:(discriminate)). vm_compute in H. discriminate.
Qed.

(** Two pairs that are not swaps of each other and share a hash. *)
Example CoordHash_collision :
  CoordHash std_hash_int (0, 1) = CoordHash std_hash_int (2, 0).
Proof. reflexivity. Qed.

(** ** Moving a grid *)

Lemma offset_coord_comm (a b : Coord) : offset_coord a b = offset_coord b a.
Proof. unfold offset_coord, int_add. by rewrite (Z.add_comm a.1), (Z.add_comm a.2). Qed.

Lemma offset_coord_swap (c a b : Coord) :
  offset_coord (offset_coord c a) b = offset_coord (offset_coord c b) a.
Proof.
  destruct c as [x y], a as [a1 a2], b as [b1 b2].
  unfold offset_coord; simpl; f_equal; wrap_arith.
Qed.

Lemma offset_coord_forth (c d : Coord) :
  in_int_coord c -> offset_coord (offset_coord c (opp_coord d)) d = c.
Proof.
  destruct c as [x y], d as [a b]; intros [Hx Hy].
  unfold offset_coord, opp_coord; simpl; f_equal; wrap_arith.
Qed.

Lemma coords_in_range_insert (g : CellGrid) (k : Coord) (v : bool) :
  in_int_coord k -> coords_in_range g -> coords_in_range (<[ k := v ]> g).
Proof.
  intros Hk Hg c [w Hw].
  apply lookup_insert_Some in Hw as [[<- _]|[_ Hw]]; [done|].
  apply Hg; eauto.
Qed.

Lemma coords_in_range_grid_of_cells (l : list Coord) :
  Forall in_int_coord l -> coords_in_range (grid_of_cells l).
Proof.
  induction 1 as [|k l Hk Hl IH]; simpl.
  - intros c [v Hv]. by rewrite lookup_empty in Hv.
  - by apply coords_in_range_insert.
Qed.

Lemma translate_in_range (d : Coord) (g : CellGrid) :
  coords_in_range (translate d g).
Proof.
  unfold translate. revert g.
  apply (map_fold_weak_ind (fun (r : CellGrid) (_ : CellGrid) =>
           coords_in_range r)).
  - intros c [v Hv]. by rewrite lookup_empty in Hv.
  - intros i x m r _ IH. apply coords_in_range_insert; [|done].
    apply offset_coord_in_int.
Qed.

(** The moved grid has at [c] what the grid has at [c] minus [d]. *)
Lemma lookup_translate (d : Coord) (g : CellGrid) (c : Coord) :
  coords_in_range g -> in_int_coord c ->
  translate d g !! c = g !! offset_coord c (opp_coord d).
Proof.
  intros Hg Hc. unfold translate. revert g Hg.
  apply (map_fold_weak_ind (fun (r : CellGrid) (m : CellGrid) =>
           coords_in_range m -> r !! c = m !! offset_coord c (opp_coord d))).
  - intros _. by rewrite !lookup_empty.
  - intros i x m r Hi IH Hm.
    assert (Hi' : in_int_coord i) by (apply Hm; rewrite lookup_insert_eq; eauto).
    assert (Hm' : coords_in_range m).
    { intros k [v Hv]. apply Hm. destruct (decide (i = k)) as [->|Hne].
      - rewrite Hi in Hv. discriminate.
      - rewrite lookup_insert_ne by done. eauto. }
    destruct (decide (offset_coord i d = c)) as [<-|Hne].
    + by rewrite offset_coord_back, !lookup_insert_eq.
    + rewrite lookup_insert_ne by done. rewrite IH by done.
      rewrite lookup_insert_ne; [done|].
      intros ->. apply Hne. by apply offset_coord_forth.
Qed.

Lemma lookup_translate_offset (d : Coord) (g : CellGrid) (k : Coord) :
  coords_in_range g -> in_int_coord k ->
  translate d g !! offset_coord k d = g !! k.
Proof.
  intros Hg Hk.
  rewrite lookup_translate by (done || apply offset_coord_in_int).
  by rewrite offset_coord_back.
Qed.

Lemma translate_insert (d : Coord) (g : CellGrid) (k : Coord) :
  coords_in_range g -> in_int_coord k ->
  translate d (<[ k := true ]> g) = <[ offset_coord k d := true ]> (translate d g).
Proof.
  intros Hg Hk. apply map_eq; intros c.
  assert (Hg' : coords_in_range (<[ k := true ]> g))
    by (by apply coords_in_range_insert).
  destruct (decide (in_int_coord c)) as [Hc|Hc].
  - rewrite lookup_translate by done.
    destruct (decide (offset_coord k d = c)) as [<-|Hne].
    + by rewrite offset_coord_back, !lookup_insert_eq.
    + rewrite (lookup_insert_ne _ (offset_coord k d)) by done.
      rewrite lookup_translate by done.
      rewrite lookup_insert_ne; [done|].
      intros ->. apply Hne. by apply offset_coord_forth.
  - assert (E : translate d (<[ k := true ]> g) !! c = None).
    { apply eq_None_not_Some. intros H.
      exact (Hc (translate_in_range d (<[ k := true ]> g) c H)). }
    rewrite E. symmetry. apply eq_None_not_Some. intros H. apply Hc.
    apply (coords_in_range_insert (translate d g) (offset_coord k d) true);
      [apply offset_coord_in_int|apply translate_in_range|done].
Qed.

Lemma translate_grid_of_cells (d : Coord) (l : list Coord) :
  Forall in_int_coord l ->
  translate d (grid_of_cells l)
  = grid_of_cells ((fun k => offset_coord k d) <$> l).
Proof.
  induction 1 as [|k l Hk Hl IH]; simpl.
  - reflexivity.
  - rewrite translate_insert, IH; [done| |done].
    by apply coords_in_range_grid_of_cells.
Qed.

(** For a cell with [int] coordinates the step is the test of the second
    loop alone: a cell that passes it is a candidate. *)
Lemma lookup_advance (g : CellGrid) (c : Coord) :
  coords_in_range g -> in_int_coord c ->
  advance g !! c = if cell_lives g c then Some true else None.
Proof.
  intros Hg Hc. unfold advance. rewrite lookup_update_grid.
  destruct (cell_lives g c) eqn:Hl.
  - rewrite decide_True; [done|]. split; [|done].
    destruct (decide (c ∈ collect_candidates g)) as [|Hn]; [done|exfalso].
    rewrite elem_of_collect_candidates in Hn.
    destruct (not_candidate_isolated g c Hg Hc Hn) as [Hd H0].
    apply cell_lives_rule in Hl; [|done..].
    rewrite H0 in Hl. destruct Hl as [[_ [?|?]]|[_ ?]]; lia.
  - rewrite decide_False; [done|]. by intros [_ ?].
Qed.

Lemma advance_in_range (g : CellGrid) :
  coords_in_range g -> coords_in_range (advance g).
Proof. apply update_grid_in_range. Qed.

Lemma is_alive_translate (d : Coord) (g : CellGrid) (c o : Coord) :
  coords_in_range g ->
  is_alive (translate d g) (offset_coord c o)
  <-> is_alive g (offset_coord (offset_coord c (opp_coord d)) o).
Proof.
  intros Hg. unfold is_alive.
  rewrite lookup_translate by (done || apply offset_coord_in_int).
  by rewrite offset_coord_swap.
Qed.

Lemma count_translate (d : Coord) (g : CellGrid) (c : Coord) :
  coords_in_range g ->
  count_active_neighbours (translate d g) c
  = count_active_neighbours g (offset_coord c (opp_coord d)).
Proof.
  intros Hg. rewrite !count_active_neighbours_length. f_equal.
  induction neighbour_offsets as [|o l IH]; [done|].
  rewrite !fmap_cons.
  destruct (decide (is_alive (translate d g) (offset_coord c o))) as [Ha|Ha].
  - rewrite !filter_cons_True; [|by apply is_alive_translate|done].
    simpl. by rewrite IH.
  - rewrite !filter_cons_False; [done| |done].
    intros Hb. by apply Ha, is_alive_translate.
Qed.

Lemma cell_lives_translate (d : Coord) (g : CellGrid) (c : Coord) :
  coords_in_range g -> in_int_coord c ->
  cell_lives (translate d g) c = cell_lives g (offset_coord c (opp_coord d)).
Proof.
  intros Hg Hc. unfold cell_lives. rewrite count_translate by done.
  unfold grid_count. by rewrite lookup_translate.
Qed.

(** The step commutes with moving the grid. *)
Lemma advance_translate (d : Coord) (g : CellGrid) :
  coords_in_range g -> advance (translate d g) = translate d (advance g).
Proof.
  intros Hg. apply map_eq; intros c.
  destruct (decide (in_int_coord c)) as [Hc|Hc].
  - rewrite lookup_advance by (done || apply translate_in_range).
    rewrite lookup_translate by (done || by apply advance_in_range).
    rewrite lookup_advance by (done || apply offset_coord_in_int).
    by rewrite cell_lives_translate.
  - assert (E : advance (translate d g) !! c = None).
    { apply eq_None_not_Some. intros H. apply Hc.
      apply (advance_in_range (translate d g)); [apply translate_in_range|done]. }
    rewrite E. symmetry. apply eq_None_not_Some. intros H.
    exact (Hc (translate_in_range d (advance g) c H)).
Qed.

(** ** The blinker *)

Lemma blinker_translate (c : Coord) :
  in_int_coord c -> blinker c = translate c (blinker (0, 0)).
Proof.
  intros Hc. change (blinker (0, 0)) with (grid_of_cells [(-1, 0); (0, 0); (1, 0)]).
  rewrite translate_grid_of_cells by (repeat constructor; by vm_compute).
  unfold blinker; simpl.
  by rewrite offset_coord_origin, !(offset_coord_comm c).
Qed.

Lemma blinker_upright_translate (c : Coord) :
  in_int_coord c -> blinker_upright c = translate c (blinker_upright (0, 0)).
Proof.
  intros Hc.
  change (blinker_upright (0, 0)) with (grid_of_cells [(0, -1); (0, 0); (0, 1)]).
  rewrite translate_grid_of_cells by (repeat constructor; by vm_compute).
  unfold blinker_upright; simpl.
  by rewrite offset_coord_origin, !(offset_coord_comm c).
Qed.

Lemma blinker_origin_in_range : coords_in_range (blinker (0, 0)).
Proof.
  apply (coords_in_range_grid_of_cells [(-1, 0); (0, 0); (1, 0)]).
  repeat constructor; by vm_compute.
Qed.

Lemma blinker_upright_origin_in_range : coords_in_range (blinker_upright (0, 0)).
Proof.
  apply (coords_in_range_grid_of_cells [(0, -1); (0, 0); (0, 1)]).
  repeat constructor; by vm_compute.
Qed.

Example blinker_upright_origin_turns :
  advance (blinker_upright (0, 0)) = blinker (0, 0).
Proof. vm_compute. reflexivity. Qed.

(** C3. Three horizontally adjacent live cells, wherever their centre [c]
    lies: one step turns them into three vertically adjacent cells, which is
    a different grid, and a second step gives the original grid back. *)
Theorem blinker_period_two (c : Coord) :
  in_int_coord c ->
  advance (advance (blinker c)) = blinker c
  /\ advance (blinker c) <> blinker c
  /\ advance (blinker c) = blinker_upright c.
Proof.
  intros Hc.
  assert (E : advance (blinker c) = blinker_upright c).
  { rewrite blinker_translate, blinker_upright_translate by done.
    rewrite advance_translate by apply blinker_origin_in_range.
    by rewrite blinker_origin_turns. }
  split; [|split; [|exact E]].
  - rewrite E, blinker_upright_translate, (blinker_translate c) by done.
    rewrite advance_translate by apply blinker_upright_origin_in_range.
    by rewrite blinker_upright_origin_turns.
  - rewrite E, blinker_upright_translate, (blinker_translate c) by done.
    intros H. apply (f_equal (fun g => g !! offset_coord (0, 1) c)) in H.
    rewrite !lookup_translate_offset in H
      by first [ exact blinker_origin_in_range
               | exact blinker_upright_origin_in_range
               | by vm_compute ].
    vm_compute in H. discriminate.
Qed.

Lemma blinker_period_two_witness :
  in_int_coord (10, -4)
  /\ advance (advance (blinker (10, -4))) = blinker (10, -4)
  /\ advance (blinker (10, -4)) <> blinker (10, -4)
  /\ advance (blinker (10, -4)) = blinker_upright (10, -4).
Proof.
  assert (H : in_int_coord (10, -4)) by (by vm_compute).
  exact (conj H (blinker_period_two (10, -4) H)).
Defined.

(** ** What every grid of the program satisfies *)

(** The hypotheses [all_marked] and [coords_in_range] hold of the empty grid
    [main] starts with and are kept by every function that writes the grid. *)










(** Without the markers: two presses on a cell leave the set of live cells
    as it was, in every grid. *)
Lemma toggle_twice_same_cells (g : CellGrid) (s : Stroke) (c r : Coord) :
  dom (toggle_start c (end_stroke r (toggle_start c (g, s)))).1 = dom g.
Proof.
  rewrite !toggle_start_grid, end_stroke_grid, toggle_start_grid.
  simpl. unfold is_alive.
  destruct (decide (is_Some (g !! c))) as [Hl|Hd].
  - rewrite decide_False by (rewrite lookup_delete_eq; by intros [? ?]).
    rewrite insert_delete_eq, dom_insert_L.
    apply elem_of_dom in Hl. apply set_eq; intros k.
    rewrite elem_of_union, elem_of_singleton.
    split; [intros [->|?]; done|auto].
  - rewrite decide_True by (rewrite lookup_insert_eq; eauto).
    rewrite delete_insert_id; [done|]. by apply eq_None_not_Some.
Qed.

(** ** More on counting neighbours *)

Lemma offset_coord_moves (c o : Coord) :
  o ∈ neighbour_offsets -> offset_coord c o <> c.
Proof.
  rewrite neighbour_offsets_spec. destruct c as [x y], o as [a b]; simpl.
  intros (Ha & Hb & Hne) [= E1 E2]. apply Hne. f_equal; wrap_arith.
Qed.

Lemma alive_around_length (g : CellGrid) (c : Coord) (X : CandidateSet) :
  (forall d, is_alive g d -> d <> c -> d ∈ X) ->
  (length (filter (is_alive g) (offset_coord c <$> neighbour_offsets))
   <= size X)%nat.
Proof.
  intros HX.
  rewrite <- (size_list_to_set (C := CandidateSet))
    by (apply NoDup_filter, NoDup_neighbours).
  apply subseteq_size. intros d.
  rewrite elem_of_list_to_set, list_elem_of_filter, list_elem_of_fmap.
  intros [Hd (o & -> & Ho)]. apply HX; [done|]. by apply offset_coord_moves.
Qed.

(** The count is between 0 and 8 in every grid and at every cell. *)
Theorem count_active_neighbours_bounds (g : CellGrid) (c : Coord) :
  0 <= count_active_neighbours g c <= 8.
Proof.
  rewrite count_active_neighbours_length.
  pose proof (length_filter (is_alive g) (offset_coord c <$> neighbour_offsets)) as H.
  rewrite length_fmap in H. change (length neighbour_offsets) with 8%nat in H.
  lia.
Qed.

Lemma count_agree (g g' : CellGrid) (c : Coord) :
  (forall o, o ∈ neighbour_offsets ->
     is_alive g (offset_coord c o) <-> is_alive g' (offset_coord c o)) ->
  count_active_neighbours g c = count_active_neighbours g' c.
Proof.
  intros H. rewrite !count_active_neighbours_length. f_equal.
  induction neighbour_offsets as [|o l IH]; [done|].
  rewrite !fmap_cons.
  assert (Ho : is_alive g (offset_coord c o) <-> is_alive g' (offset_coord c o))
    by (apply H; left).
  assert (IH' : length (filter (is_alive g) (offset_coord c <$> l))
                = length (filter (is_alive g') (offset_coord c <$> l)))
    by (apply IH; intros; apply H; by right).
  destruct (decide (is_alive g (offset_coord c o))) as [Ha|Ha].
  - rewrite !filter_cons_True by tauto. simpl. by rewrite IH'.
  - rewrite !filter_cons_False by tauto. done.
Qed.

(** A cell is not its own neighbour: painting or erasing [c] leaves the
    count at [c] as it was. *)
Theorem count_active_neighbours_own_cell (g : CellGrid) (c : Coord) (v : bool) :
  count_active_neighbours (<[ c := v ]> g) c = count_active_neighbours g c
  /\ count_active_neighbours (delete c g) c = count_active_neighbours g c.
Proof.
  split; apply count_agree; intros o Ho; unfold is_alive;
    pose proof (offset_coord_moves c o Ho) as Hne.
  - by rewrite lookup_insert_ne.
  - by rewrite lookup_delete_ne.
Qed.

(** For a cell strictly inside the range of [int], the count is the number of
    live cells next to it on the unbounded plane. *)
Theorem count_active_neighbours_plane (g : CellGrid) (c : Coord) :
  coords_in_range g ->
  INT_MIN < c.1 < INT_MAX -> INT_MIN < c.2 < INT_MAX ->
  count_active_neighbours g c
  = Z.of_nat (size (filter (plane_adjacent c) (dom g))).
Proof.
  intros Hg Hx Hy. rewrite count_active_neighbours_spec.
  - by rewrite alive_neighbours_plane.
  - done.
  - unfold in_int_coord, in_int. lia.
Qed.

Lemma count_active_neighbours_plane_witness :
  count_active_neighbours (grid_of_cells [(0, 0); (1, 0); (2, 0)]) (1, 1)
  = Z.of_nat (size (filter (plane_adjacent (1, 1))
                           (dom (grid_of_cells [(0, 0); (1, 0); (2, 0)])))).
Proof.
  apply (count_active_neighbours_plane
           (grid_of_cells [(0, 0); (1, 0); (2, 0)]) (1, 1)).
  - apply three_in_a_row_in_range.
  - by vm_compute.
  - by vm_compute.
Defined.

(** ** More on the step *)

Lemma update_grid_fst (g : CellGrid) (n : Z) : (update_grid g n).1 = advance g.
Proof. reflexivity. Qed.

Lemma cell_lives_agree (g g' : CellGrid) (c : Coord) :
  (is_alive g c <-> is_alive g' c) ->
  (forall o, o ∈ neighbour_offsets ->
     is_alive g (offset_coord c o) <-> is_alive g' (offset_coord c o)) ->
  cell_lives g c = cell_lives g' c.
Proof.
  intros Hc Ho. unfold cell_lives. rewrite (count_agree g g' c Ho).
  assert (grid_count g c = grid_count g' c) as ->; [|done].
  unfold grid_count, is_alive in *.
  destruct (g !! c), (g' !! c); try done.
  - destruct Hc as [Hc _]. destruct Hc; [eauto|done].
  - destruct Hc as [_ Hc]. destruct Hc; [eauto|done].
Qed.

(** The step reads which cells are keys of the grid and nothing else: two
    grids with the same keys give the same new grid and counter, whatever
    markers they store. *)
Theorem update_grid_reads_keys_only (g g' : CellGrid) (n : Z) :
  dom g = dom g' -> update_grid g n = update_grid g' n.
Proof.
  intros Hdom.
  assert (Ha : forall k, is_alive g k <-> is_alive g' k).
  { intros k. unfold is_alive. by rewrite <- !elem_of_dom, Hdom. }
  assert (Hc : collect_candidates g = collect_candidates g').
  { apply set_eq; intros c. rewrite !elem_of_collect_candidates.
    unfold is_candidate. by setoid_rewrite Ha. }
  unfold update_grid. f_equal. apply map_eq; intros c.
  rewrite !lookup_next_grid, Hc.
  by rewrite (cell_lives_agree g g' c (Ha c) (fun o _ => Ha (offset_coord c o))).
Qed.

Lemma update_grid_reads_keys_only_witness :
  update_grid (<[ (0, 0) := false ]> (grid_of_cells [(0, 1); (1, 1)])) 7
  = update_grid (grid_of_cells [(0, 0); (0, 1); (1, 1)]) 7.
Proof.
  apply (update_grid_reads_keys_only
           (<[ (0, 0) := false ]> (grid_of_cells [(0, 1); (1, 1)]))
           (grid_of_cells [(0, 0); (0, 1); (1, 1)]) 7).
  vm_compute. reflexivity.
Defined.

(** A grid with fewer than three live cells is empty after one step. *)
Theorem fewer_than_three_cells_die (g : CellGrid) (n : Z) :
  (size g < 3)%nat -> (update_grid g n).1 = ∅.
Proof.
  intros Hsize. apply map_empty; intros c. rewrite lookup_update_grid.
  rewrite decide_False; [done|]. intros [_ Hl].
  unfold cell_lives in Hl. rewrite count_active_neighbours_length in Hl.
  rewrite <- (size_dom (D := CandidateSet)) in Hsize.
  pose proof (alive_around_length g c (dom g ∖ {[ c ]})) as Hone.
  pose proof (alive_around_length g c (dom g)) as Hall.
  set (k := length (filter (is_alive g) (offset_coord c <$> neighbour_offsets)))
    in *.
  destruct (decide (is_alive g c)) as [Ha|Ha].
  - assert ((grid_count g c =? 0) = false) as E
      by (apply Z.eqb_neq; by apply grid_count_alive).
    rewrite E in Hl. cbn [negb] in Hl.
    rewrite size_difference, size_singleton in Hone
      by (apply singleton_subseteq_l; by apply elem_of_dom).
    assert (Hk : (k <= size (dom g) - 1)%nat).
    { apply Hone. intros d Hd Hne. apply elem_of_difference; split;
        [by apply elem_of_dom|by rewrite elem_of_singleton]. }
    apply orb_true_iff in Hl as [Hl|Hl]; apply Z.eqb_eq in Hl; lia.
  - assert ((grid_count g c =? 0) = true) as E.
    { apply Z.eqb_eq. destruct (decide (grid_count g c = 0)); [done|].
      exfalso. by apply Ha, grid_count_alive. }
    rewrite E in Hl. cbn [negb] in Hl. apply Z.eqb_eq in Hl.
    assert (Hk : (k <= size (dom g))%nat).
    { apply Hall. intros d Hd _. by apply elem_of_dom. }
    lia.
Qed.

Lemma fewer_than_three_cells_die_witness :
  Nat.lt (size (grid_of_cells [(4, 4); (5, 5)])) 3 /\
  (update_grid (grid_of_cells [(4, 4); (5, 5)]) 0).1 = ∅.
Proof.
  assert (H : Nat.lt (size (grid_of_cells [(4, 4); (5, 5)])) 3)
    by (vm_compute; lia).
  exact (conj H (fewer_than_three_cells_die _ 0 H)).
Defined.

Lemma size_insert_offsets (coord : Coord) (l : list Coord) (cands : CandidateSet) :
  (size (fold_left (fun cs offset => {[ offset_coord coord offset ]} ∪ cs) l cands)
   <= length l + size cands)%nat.
Proof.
  revert cands; induction l as [|o l IH]; intros cands; simpl; [lia|].
  etrans; [apply IH|].
  rewrite size_union_alt, size_singleton.
  pose proof (subseteq_size (cands ∖ {[ offset_coord coord o ]}) cands) as H.
  assert (cands ∖ {[ offset_coord coord o ]} ⊆ cands) as Hs
    by (intros x; rewrite elem_of_difference; tauto).
  specialize (H Hs). lia.
Qed.

Lemma size_insert_with_neighbours (coord : Coord) (cands : CandidateSet) :
  (size (insert_with_neighbours coord cands) <= 9 + size cands)%nat.
Proof.
  unfold insert_with_neighbours. etrans; [apply size_insert_offsets|].
  change (length neighbour_offsets) with 8%nat.
  rewrite size_union_alt, size_singleton.
  pose proof (subseteq_size (cands ∖ {[ coord ]}) cands) as H.
  assert (cands ∖ {[ coord ]} ⊆ cands) as Hs
    by (intros x; rewrite elem_of_difference; tauto).
  specialize (H Hs). lia.
Qed.

(** The first loop collects at most nine candidates per live cell, every
    cell of the new grid is one of them, and so the population grows at most
    ninefold in a step. *)
Theorem update_grid_population_bound (g : CellGrid) (n : Z) :
  (size (collect_candidates g) <= 9 * size g)%nat
  /\ dom (update_grid g n).1 ⊆ collect_candidates g
  /\ (size (update_grid g n).1 <= 9 * size g)%nat.
Proof.
  assert (H1 : (size (collect_candidates g) <= 9 * size g)%nat).
  { unfold collect_candidates. revert g.
    apply (map_fold_weak_ind (fun (r : CandidateSet) (m : CellGrid) =>
             (size r <= 9 * size m)%nat)).
    - rewrite size_empty. lia.
    - intros i x m r Hi IH. rewrite map_size_insert_None by done.
      pose proof (size_insert_with_neighbours i r). lia. }
  assert (H2 : dom (update_grid g n).1 ⊆ collect_candidates g).
  { intros c Hc. apply elem_of_dom in Hc as [v Hv].
    rewrite lookup_update_grid in Hv.
    destruct (decide _) as [[Hc _]|]; [done|discriminate]. }
  split; [done|]. split; [done|].
  rewrite <- (size_dom (D := CandidateSet)).
  etrans; [apply subseteq_size, H2|done].
Qed.

(** The step is local: the new state of a cell is decided by the cell and
    the eight around it, so two grids that agree there agree at the cell
    after a step. *)
Theorem update_grid_local (g g' : CellGrid) (n n' : Z) (c : Coord) :
  coords_in_range g -> coords_in_range g' -> in_int_coord c ->
  (is_alive g c <-> is_alive g' c) ->
  (forall o, o ∈ neighbour_offsets ->
     is_alive g (offset_coord c o) <-> is_alive g' (offset_coord c o)) ->
  (update_grid g n).1 !! c = (update_grid g' n').1 !! c.
Proof.
  intros Hg Hg' Hc Hown Haround.
  rewrite !update_grid_fst, !lookup_advance by done.
  by rewrite (cell_lives_agree g g' c Hown Haround).
Qed.

Lemma update_grid_local_witness :
  (update_grid (grid_of_cells [(0, 0); (1, 0); (2, 0)]) 0).1 !! (1, 1)
  = (update_grid (grid_of_cells [(0, 0); (1, 0); (2, 0); (40, 40)]) 5).1 !! (1, 1).
Proof.
  apply (update_grid_local (grid_of_cells [(0, 0); (1, 0); (2, 0)])
           (grid_of_cells [(0, 0); (1, 0); (2, 0); (40, 40)]) 0 5 (1, 1)).
  - apply three_in_a_row_in_range.
  - apply (coords_in_range_grid_of_cells [(0, 0); (1, 0); (2, 0); (40, 40)]).
    repeat constructor; by vm_compute.
  - by vm_compute.
  - vm_compute. split; intros [v Hv]; discriminate.
  - intros o Ho. unfold neighbour_offsets in Ho.
    repeat (apply elem_of_cons in Ho as [->|Ho]);
      [..|by apply elem_of_nil in Ho];
      vm_compute; split; (intros [v Hv]; (discriminate || by exists true)).
Defined.

(** The step commutes with moving the grid, and the counter does not see the
    move. *)
Theorem update_grid_translate (d : Coord) (g : CellGrid) (n : Z) :
  coords_in_range g ->
  update_grid (translate d g) n
  = (translate d (update_grid g n).1, (update_grid g n).2).
Proof.
  intros Hg. rewrite (surjective_pairing (update_grid (translate d g) n)).
  rewrite !update_grid_fst. by rewrite advance_translate.
Qed.

Lemma update_grid_translate_witness :
  update_grid (translate (7, -2) (grid_of_cells [(0, 0); (1, 0); (2, 0)])) 3
  = (translate (7, -2) (update_grid (grid_of_cells [(0, 0); (1, 0); (2, 0)]) 3).1,
     (update_grid (grid_of_cells [(0, 0); (1, 0); (2, 0)]) 3).2).
Proof.
  apply (update_grid_translate (7, -2) (grid_of_cells [(0, 0); (1, 0); (2, 0)]) 3).
  apply three_in_a_row_in_range.
Defined.

(** [k] steps run the grid [k] times through the rule and add [k] to the
    counter, as long as the counter stays a [long long]. *)
Theorem run_steps_generation (k : nat) (g : CellGrid) (n : Z) :
  LLONG_MIN <= n -> n + Z.of_nat k <= LLONG_MAX ->
  run_steps k (g, n) = (Nat.iter k advance g, n + Z.of_nat k).
Proof.
  intros Hmin. induction k as [|k IH]; intros Hmax.
  - simpl. f_equal. lia.
  - unfold run_steps in *. rewrite !Nat.iter_succ, IH by lia. simpl.
    unfold update_grid. f_equal.
    unfold llong_add, wrap64, LLONG_MIN, LLONG_MAX in *.
    change (2 ^ 63) with 9223372036854775808.
    change (2 ^ 64) with 18446744073709551616.
    Z.div_mod_to_equations; lia.
Qed.

Lemma run_steps_generation_witness :
  run_steps 4 (blinker (0, 0), 10) = (blinker (0, 0), 14).
Proof.
  rewrite (run_steps_generation 4 (blinker (0, 0)) 10);
    [vm_compute; reflexivity | by vm_compute | by vm_compute].
Defined.

(** ** More on painting *)

(** One call writes the grid at the cell under the pointer or nowhere. *)
Theorem handle_mouse_interaction_other_cells
    (g : CellGrid) (s : Stroke) (mouse : MouseInput) (c k : Coord) :
  k <> c -> (handle_mouse_interaction g s mouse c).1 !! k = g !! k.
Proof.
  intros Hne. unfold handle_mouse_interaction.
  repeat (match goal with
          | |- context [if ?b then _ else _] => destruct b
          end; simpl);
    rewrite ?lookup_insert_ne, ?lookup_delete_ne by done; reflexivity.
Qed.

Lemma handle_mouse_interaction_other_cells_witness :
  (handle_mouse_interaction (grid_of_cells [(1, 1)]) stroke_init
     press_frame (2, 2)).1 !! (1, 1) = Some true.
Proof.
  rewrite (handle_mouse_interaction_other_cells
             (grid_of_cells [(1, 1)]) stroke_init press_frame (2, 2) (1, 1));
    [reflexivity | discriminate].
Defined.

(** While the right button is held the grid is not written: a press is
    dropped with the stroke state untouched, and any other frame ends the
    stroke. *)
Theorem right_button_blocks_painting
    (g : CellGrid) (s : Stroke) (mouse : MouseInput) (c : Coord) :
  right_down mouse = true ->
  (handle_mouse_interaction g s mouse c).1 = g
  /\ (left_pressed mouse = true ->
      (handle_mouse_interaction g s mouse c).2 = s)
  /\ (left_pressed mouse = false ->
      (handle_mouse_interaction g s mouse c).2 = set_painting false s).
Proof.
  destruct mouse as [pressed down released right]; simpl. intros ->.
  unfold handle_mouse_interaction; simpl.
  destruct s as [p m t], pressed, p, down, released; simpl;
    repeat split; intros; try done.
Qed.

Lemma right_button_blocks_painting_witness :
  (handle_mouse_interaction (grid_of_cells [(1, 1)])
     {| is_painting := true; paint_mode_is_drawing := true;
        cells_modified_this_stroke := ∅ |}
     {| left_pressed := false; left_down := true;
        left_released := false; right_down := true |} (2, 2)).1
  = grid_of_cells [(1, 1)].
Proof.
  apply (right_button_blocks_painting (grid_of_cells [(1, 1)])
     {| is_painting := true; paint_mode_is_drawing := true;
        cells_modified_this_stroke := ∅ |}
     {| left_pressed := false; left_down := true;
        left_released := false; right_down := true |} (2, 2)).
  reflexivity.
Defined.

(** Without a press nothing is painted: from a state that is not painting,
    any number of frames in which the left button is not newly pressed
    leave the grid and the stroke state as they were. *)
Theorem no_press_no_paint
    (frames : list (MouseInput * Coord)) (g : CellGrid) (s : Stroke) :
  is_painting s = false ->
  Forall (fun f => left_pressed f.1 = false) frames ->
  mouse_frames frames (g, s) = (g, s).
Proof.
  intros Hs Hf. unfold mouse_frames.
  induction Hf as [|[mouse c] frames Hm _ IH]; simpl; [done|].
  assert (handle_mouse_interaction g s mouse c = (g, s)) as ->; [|exact IH].
  simpl in Hm. unfold handle_mouse_interaction. rewrite Hm, Hs. simpl.
  destruct s as [p m t]; simpl in Hs; subst p.
  by rewrite andb_false_r.
Qed.

Lemma no_press_no_paint_witness :
  mouse_frames [(drag_frame, (1, 1)); (release_frame, (2, 1)); (drag_frame, (3, 1))]
    (grid_of_cells [(0, 0)], stroke_init)
  = (grid_of_cells [(0, 0)], stroke_init).
Proof.
  apply (no_press_no_paint
    [(drag_frame, (1, 1)); (release_frame, (2, 1)); (drag_frame, (3, 1))]
    (grid_of_cells [(0, 0)]) stroke_init).
  - reflexivity.
  - repeat constructor.
Defined.

Lemma drag_over_cons (d : Coord) (cs : list Coord) (st : CellGrid * Stroke) :
  drag_over (d :: cs) st = drag_over cs (continue_stroke d st).
Proof. reflexivity. Qed.

Lemma continue_stroke_painting (d : Coord) (g : CellGrid) (drawing : bool)
    (t : CandidateSet) :
  continue_stroke d (g, painting drawing t)
  = if decide (d ∈ t) then (g, painting drawing t)
    else (if drawing
          then if decide (grid_count g d <> 0) then g else <[ d := true ]> g
          else if decide (grid_count g d <> 0) then delete d g else g,
          painting drawing ({[ d ]} ∪ t)).
Proof.
  unfold continue_stroke, handle_mouse_interaction, painting; simpl.
  destruct (decide (d ∈ t)); reflexivity.
Qed.

Lemma drag_over_drawing (cs : list Coord) (g : CellGrid) (t : CandidateSet) :
  t ⊆ dom g ->
  dom (drag_over cs (g, painting true t)).1 = dom g ∪ list_to_set cs
  /\ (drag_over cs (g, painting true t)).2 = painting true (t ∪ list_to_set cs).
Proof.
  revert g t. induction cs as [|d cs IH]; intros g t Ht.
  - unfold drag_over; simpl. by rewrite !union_empty_r_L.
  - rewrite drag_over_cons, continue_stroke_painting, list_to_set_cons.
    destruct (decide (d ∈ t)) as [Hd|Hd].
    + destruct (IH g t Ht) as [E1 E2]. rewrite E1, E2. split.
      * apply set_eq; intros x. rewrite !elem_of_union, elem_of_singleton.
        split; [tauto|]. intros [?|[->|?]]; auto.
      * f_equal. apply set_eq; intros x.
        rewrite !elem_of_union, elem_of_singleton.
        split; [tauto|]. intros [?|[->|?]]; auto.
    + set (g' := if decide (grid_count g d <> 0) then g else <[ d := true ]> g).
      assert (Hdom : dom g' = {[ d ]} ∪ dom g).
      { unfold g'. destruct (decide (grid_count g d <> 0)) as [Ha|Ha].
        - apply grid_count_alive, elem_of_dom in Ha.
          apply set_eq; intros x. rewrite elem_of_union, elem_of_singleton.
          split; [tauto|]. intros [->|?]; auto.
        - apply dom_insert_L. }
      destruct (IH g' ({[ d ]} ∪ t)) as [E1 E2].
      { rewrite Hdom. intros x. rewrite !elem_of_union. intros [?|?]; auto. }
      rewrite E1, E2, Hdom. split.
      * apply set_eq; intros x. rewrite !elem_of_union. tauto.
      * f_equal. apply set_eq; intros x. rewrite !elem_of_union. tauto.
Qed.

Lemma drag_over_erasing (cs : list Coord) (g : CellGrid) (t : CandidateSet) :
  t ## dom g ->
  dom (drag_over cs (g, painting false t)).1 = dom g ∖ list_to_set cs
  /\ (drag_over cs (g, painting false t)).2 = painting false (t ∪ list_to_set cs).
Proof.
  revert g t. induction cs as [|d cs IH]; intros g t Ht.
  - unfold drag_over; simpl. by rewrite difference_empty_L, union_empty_r_L.
  - rewrite drag_over_cons, continue_stroke_painting, list_to_set_cons.
    destruct (decide (d ∈ t)) as [Hd|Hd].
    + destruct (IH g t Ht) as [E1 E2]. rewrite E1, E2. split.
      * apply set_eq; intros x.
        rewrite !elem_of_difference, elem_of_union, elem_of_singleton.
        split; [|tauto]. intros [Hx Hn]; split; [done|].
        intros [->|?]; [|done]. exact (Ht _ Hd Hx).
      * f_equal. apply set_eq; intros x.
        rewrite !elem_of_union, elem_of_singleton.
        split; [tauto|]. intros [?|[->|?]]; auto.
    + set (g' := if decide (grid_count g d <> 0) then delete d g else g).
      assert (Hdom : dom g' = dom g ∖ {[ d ]}).
      { unfold g'. destruct (decide (grid_count g d <> 0)) as [Ha|Ha].
        - apply dom_delete_L.
        - rewrite grid_count_alive in Ha.
          apply set_eq; intros x.
          rewrite elem_of_difference, elem_of_singleton, elem_of_dom.
          split; [|tauto]. intros Hx; split; [done|]. by intros ->. }
      destruct (IH g' ({[ d ]} ∪ t)) as [E1 E2].
      { rewrite Hdom. intros x. rewrite elem_of_union, elem_of_singleton,
          elem_of_difference, elem_of_singleton.
        intros [->|Hx] [Hg Hn]; [done|]. exact (Ht _ Hx Hg). }
      rewrite E1, E2, Hdom. split.
      * apply set_eq; intros x.
        rewrite !elem_of_difference, elem_of_union. tauto.
      * f_equal. apply set_eq; intros x. rewrite !elem_of_union. tauto.
Qed.

(** A whole stroke: a press on a dead cell followed by a drag makes every
    cell the pointer passed over alive; a press on a live cell followed by a
    drag makes every one of them dead; no other cell changes, and the
    touched set is the cells passed over. *)
Theorem stroke_over_cells (c : Coord) (cs : list Coord) (g : CellGrid) (s : Stroke) :
  dom (stroke_over c cs (g, s)).1
  = (if decide (is_alive g c) then dom g ∖ list_to_set (c :: cs)
     else dom g ∪ list_to_set (c :: cs))
  /\ (stroke_over c cs (g, s)).2
     = painting (negb (bool_decide (is_alive g c))) (list_to_set (c :: cs)).
Proof.
  rewrite list_to_set_cons.
  destruct (decide (is_alive g c)) as [Ha|Ha].
  - assert (E : toggle_start c (g, s) = (delete c g, painting false {[ c ]})).
    { unfold toggle_start, handle_mouse_interaction, painting; simpl.
      rewrite decide_True by (by apply grid_count_alive).
      by rewrite union_empty_r_L. }
    unfold stroke_over. rewrite E, bool_decide_eq_true_2 by done. simpl.
    destruct (drag_over_erasing cs (delete c g) {[ c ]}) as [E1 E2].
    { rewrite dom_delete_L. intros x. rewrite elem_of_singleton,
        elem_of_difference, elem_of_singleton. tauto. }
    rewrite E1, E2, dom_delete_L. split; [|done].
    apply set_eq; intros x. rewrite !elem_of_difference, elem_of_union. tauto.
  - assert (E : toggle_start c (g, s)
                = (<[ c := true ]> g, painting true {[ c ]})).
    { unfold toggle_start, handle_mouse_interaction, painting; simpl.
      rewrite decide_False by (by rewrite grid_count_alive).
      by rewrite union_empty_r_L. }
    unfold stroke_over. rewrite E, bool_decide_eq_false_2 by done. simpl.
    destruct (drag_over_drawing cs (<[ c := true ]> g) {[ c ]}) as [E1 E2].
    { rewrite dom_insert_L. intros x. rewrite elem_of_union. tauto. }
    rewrite E1, E2, dom_insert_L. split; [|done].
    apply set_eq; intros x. rewrite !elem_of_union. tauto.
Qed.

(** ** Collisions of the coordinate hash *)

(** Flipping the bit [k] of an integer moves it by [2 ^ k], up when the bit
    was clear and down when it was set. *)
Lemma lxor_pow2 (x k : Z) :
  0 <= k ->
  Z.lxor x (2 ^ k) = if Z.testbit x k then x - 2 ^ k else x + 2 ^ k.
Proof.
  intros Hk.
  assert (Hclear : forall z, Z.testbit z k = false -> Z.lxor z (2 ^ k) = z + 2 ^ k).
  { intros z Hz. symmetry. apply Z.add_nocarry_lxor.
    apply Z.bits_inj'; intros n Hn.
    rewrite Z.land_spec, Z.pow2_bits_eqb, Z.bits_0 by done.
    destruct (Z.eqb_spec k n) as [<-|]; [by rewrite Hz|by rewrite andb_false_r]. }
  destruct (Z.testbit x k) eqn:Hx; [|by apply Hclear].
  assert (Hflip : Z.testbit (Z.lxor x (2 ^ k)) k = false).
  { by rewrite Z.lxor_spec, Hx, Z.pow2_bits_eqb, Z.eqb_refl. }
  apply Hclear in Hflip.
  rewrite Z.lxor_assoc, Z.lxor_nilpotent, Z.lxor_0_r in Hflip. lia.
Qed.

Lemma lxor_pow2_in_int (x k : Z) :
  0 <= k < 31 -> in_int x -> in_int (Z.lxor x (2 ^ k)).
Proof.
  intros Hk Hx. rewrite lxor_pow2 by lia.
  assert (Hlim : 2147483648 = 2 ^ k * (2 * 2 ^ (30 - k))).
  { rewrite <- Z.pow_succ_r, <- Z.pow_add_r by lia.
    replace (k + Z.succ (30 - k)) with 31 by lia. reflexivity. }
  unfold in_int, INT_MIN, INT_MAX in *.
  set (p := 2 ^ k) in *. set (q := 2 ^ (30 - k)) in *.
  assert (Hp : 0 < p) by (apply Z.pow_pos_nonneg; lia).
  pose proof (Z.div_mod x p ltac:(lia)) as Hd.
  pose proof (Z.mod_pos_bound x p Hp) as Hm.
  pose proof (Z.div_mod (x / p) 2 ltac:(lia)) as Hd2.
  set (d := x / p) in *. set (m := x mod p) in *.
  destruct (Z.testbit x k) eqn:Hb.
  - apply Z.testbit_true in Hb; [|lia]. fold p d in Hb.
    assert (H1 : 0 < d + 1 + 2 * q) by nia.
    assert (H2 : 0 <= d - 1 + 2 * q) by lia.
    assert (H3 : 0 <= p * (d - 1 + 2 * q)) by nia.
    nia.
  - apply Z.testbit_false in Hb; [|lia]. fold p d in Hb.
    assert (H1 : d < 2 * q) by nia.
    assert (H2 : 0 <= 2 * q - 2 - d) by lia.
    assert (H3 : 0 <= p * (2 * q - 2 - d)) by nia.
    nia.
Qed.

Lemma size_t_of_lxor (a b : Z) :
  size_t_of (Z.lxor a b) = Z.lxor (size_t_of a) (size_t_of b).
Proof.
  unfold size_t_of. apply Z.bits_inj'; intros n Hn.
  rewrite Z.lxor_spec, !Z.testbit_mod_pow2, Z.lxor_spec by lia.
  by destruct (n <? 64).
Qed.

(** Every cell shares its hash with a cell two columns and one row away:
    flipping bit 1 of the first coordinate and bit 0 of the second leaves
    the hash unchanged. *)
Theorem CoordHash_nearby_collision (x y : Z) :
  in_int x -> in_int y ->
  in_int (Z.lxor x 2) /\ in_int (Z.lxor y 1)
  /\ Z.abs (Z.lxor x 2 - x) = 2 /\ Z.abs (Z.lxor y 1 - y) = 1
  /\ CoordHash std_hash_int (Z.lxor x 2, Z.lxor y 1)
     = CoordHash std_hash_int (x, y).
Proof.
  intros Hx Hy.
  split; [exact (lxor_pow2_in_int x 1 ltac:(lia) Hx)|].
  split; [exact (lxor_pow2_in_int y 0 ltac:(lia) Hy)|].
  split; [|split].
  - change 2 with (2 ^ 1) at 1. rewrite lxor_pow2 by lia.
    destruct (Z.testbit x 1); simpl; lia.
  - change 1 with (2 ^ 0) at 1. rewrite lxor_pow2 by lia.
    destruct (Z.testbit y 0); simpl; lia.
  - unfold CoordHash, std_hash_int; simpl.
    rewrite !size_t_of_lxor, Z.shiftl_lxor, size_t_of_lxor.
    change (size_t_of 2) with 2. change (size_t_of 1) with 1.
    change (size_t_of (Z.shiftl 1 1)) with 2.
    set (X := size_t_of x). set (S := size_t_of (Z.shiftl (size_t_of y) 1)).
    bitwise.
Qed.

Lemma CoordHash_nearby_collision_witness :
  CoordHash std_hash_int (Z.lxor 5 2, Z.lxor (-3) 1)
  = CoordHash std_hash_int (5, -3).
Proof.
  apply (CoordHash_nearby_collision 5 (-3)); by vm_compute.
Defined.

(** ** The camera *)

(** After a move of the wheel the zoom is neither below 0.125 nor above 8,
    whatever the zoom and the wheel were. *)
Theorem wheel_zoom_clamped
    (G : Vector2 -> Camera2D -> Vector2) (right_is_down : bool)
    (delta : Vector2) (wheel : float) (pos : Vector2) (cam : Camera2D) :
  f32_eqb wheel f_0_0 = false ->
  f32_lt (zoom (handle_camera_input G right_is_down delta wheel pos cam))
         ZOOM_INCREMENT = false
  /\ f32_lt f_8_0
            (zoom (handle_camera_input G right_is_down delta wheel pos cam))
     = false.
Proof.
  intros Hw. unfold handle_camera_input. rewrite Hw. simpl.
  set (z := f32_add _ _).
  destruct (f32_lt z ZOOM_INCREMENT) eqn:Hlow.
  - change (f32_lt f_8_0 ZOOM_INCREMENT) with false. cbv iota.
    split; reflexivity.
  - destruct (f32_lt f_8_0 z) eqn:Hhigh.
    + split; reflexivity.
    + split; assumption.
Qed.

Lemma wheel_zoom_clamped_witness :
  f32_eqb (S754_finite false 8388608 (-16)) f_0_0 = false
  /\ f32_lt (zoom (handle_camera_input (fun v _ => v) false (f_0_0, f_0_0)
                     (S754_finite false 8388608 (-16)) (f_1_0, f_1_0)
                     default_camera))
            ZOOM_INCREMENT = false
  /\ f32_lt f_8_0
            (zoom (handle_camera_input (fun v _ => v) false (f_0_0, f_0_0)
                     (S754_finite false 8388608 (-16)) (f_1_0, f_1_0)
                     default_camera))
     = false.
Proof.
  split; [reflexivity|].
  apply (wheel_zoom_clamped (fun v _ => v) false (f_0_0, f_0_0)
           (S754_finite false 8388608 (-16)) (f_1_0, f_1_0) default_camera).
  reflexivity.
Defined.

(** Without the right button and without a move of the wheel (a wheel of
    [-0.0] included) the camera stays as it is. *)
Lemma handle_camera_input_idle
    (G : Vector2 -> Camera2D -> Vector2) (delta : Vector2) (wheel : float)
    (pos : Vector2) (cam : Camera2D) :
  f32_eqb wheel f_0_0 = true ->
  handle_camera_input G false delta wheel pos cam = cam.
Proof. intros Hw. unfold handle_camera_input. by rewrite Hw. Qed.

(** ** The cell under the pointer *)



(** ** The loop of [main] *)








(** A turn that ends paused does not step and does not consult the timer:
    when the simulation is paused and Space is not pressed, or running and
    Space is pressed, and neither S nor R is pressed, the generation and
    [last_time] stay as they are and the grid changes by painting only. *)
Theorem paused_frame_only_paints (G : Vector2 -> Camera2D -> Vector2)
    (seconds : Z -> float) (inp : Polled) (app : App) :
  paused (engine app) = negb (KEY_SPACE (keys inp)) ->
  KEY_S (keys inp) = false -> KEY_R (keys inp) = false ->
  paused (engine (frame G seconds inp app)) = true
  /\ generation (engine (frame G seconds inp app)) = generation (engine app)
  /\ last_time (frame G seconds inp app) = last_time app
  /\ grid (engine (frame G seconds inp app))
     = (handle_mouse_interaction (grid (engine app)) (stroke app) (buttons inp)
          (screen_to_world_coord G (mouse_position inp)
             (camera (engine (frame G seconds inp app))) BASE_CELL_SIZE)).1.
Proof.
  destruct inp as [b d w pos [sp s up down r] t0 t1]; simpl.
  intros Hp -> ->. unfold frame, handle_ui_input; simpl. rewrite Hp.
  destruct sp; simpl; repeat split.
Qed.

Lemma paused_frame_only_paints_witness :
  let inp := {| buttons := press_frame; mouse_delta := (f_0_0, f_0_0);
                wheel_move := f_0_0; mouse_position := (f_10_0, f_10_0);
                keys := {| KEY_SPACE := false; KEY_S := false; KEY_UP := false;
                           KEY_DOWN := false; KEY_R := false |};
                clock_first := 0; clock_now := 1000 |} in
  generation (engine (frame (fun v _ => v) (fun _ => f_1_0) inp initial_app)) = 0
  /\ grid (engine (frame (fun v _ => v) (fun _ => f_1_0) inp initial_app))
     = grid_of_cells [(1, 1)].
Proof.
  intros inp.
  destruct (paused_frame_only_paints (fun v _ => v) (fun _ => f_1_0) inp
              initial_app eq_refl eq_refl eq_refl) as (_ & Hg & _ & Hgrid).
  split; [exact Hg|]. rewrite Hgrid. vm_compute. reflexivity.
Defined.

(** The S key and the timer each step: in a running turn with S pressed
    (and no other key) in which the timer is due, [update_grid] runs twice,
    on the painted grid, and [last_time] becomes the current reading. *)
Theorem step_key_and_timer_both_step (G : Vector2 -> Camera2D -> Vector2)
    (seconds : Z -> float) (inp : Polled) (app : App) :
  paused (engine app) = false ->
  keys inp = {| KEY_SPACE := false; KEY_S := true; KEY_UP := false;
                KEY_DOWN := false; KEY_R := false |} ->
  (is_time_to_step seconds (last_time app) (clock_first inp) (clock_now inp)
     (step_rate (engine app))).1 = true ->
  let painted :=
    (handle_mouse_interaction (grid (engine app)) (stroke app) (buttons inp)
       (screen_to_world_coord G (mouse_position inp)
          (camera (engine (frame G seconds inp app))) BASE_CELL_SIZE)).1 in
  grid (engine (frame G seconds inp app)) = advance (advance painted)
  /\ generation (engine (frame G seconds inp app))
     = llong_add (llong_add (generation (engine app)) 1) 1
  /\ last_time (frame G seconds inp app) = Some (clock_now inp).
Proof.
  destruct inp as [b d w pos ks t0 t1]; simpl. intros Hp -> Hdue.
  unfold frame, handle_ui_input; simpl. rewrite Hp; simpl. rewrite Hdue; simpl.
  repeat split.
  unfold is_time_to_step in *.
  destruct (f32_le _ _); [reflexivity|discriminate].
Qed.

Lemma step_key_and_timer_both_step_witness :
  let inp := {| buttons := release_frame; mouse_delta := (f_0_0, f_0_0);
                wheel_move := f_0_0; mouse_position := (f_10_0, f_10_0);
                keys := {| KEY_SPACE := false; KEY_S := true; KEY_UP := false;
                           KEY_DOWN := false; KEY_R := false |};
                clock_first := 0; clock_now := 1000 |} in
  let app := {| engine := {| paused := false; step_rate := f_0_2;
                             grid := blinker (0, 0); camera := default_camera;
                             generation := 5 |};
                stroke := stroke_init; last_time := Some 0 |} in
  grid (engine (frame (fun v _ => v) (fun _ => f_1_0) inp app)) = blinker (0, 0)
  /\ generation (engine (frame (fun v _ => v) (fun _ => f_1_0) inp app)) = 7.
Proof.
  intros inp app.
  destruct (step_key_and_timer_both_step (fun v _ => v) (fun _ => f_1_0) inp app
              eq_refl eq_refl eq_refl) as (Hg & Hn & _).
  split; [rewrite Hg|rewrite Hn]; vm_compute; reflexivity.
Defined.

(** ** Symmetries of the rule *)

Section symmetry.
(** A map of the [int] plane onto itself that is its own inverse and takes
    the eight neighbours of a cell to the eight neighbours of its image. *)
Variables sigma tau : Coord -> Coord.
Hypothesis sigma_in_int : forall c, in_int_coord c -> in_int_coord (sigma c).
Hypothesis sigma_invol : forall c, in_int_coord c -> sigma (sigma c) = c.
Hypothesis sigma_offset : forall c o,
  in_int_coord c -> o ∈ neighbour_offsets ->
  sigma (offset_coord c o) = offset_coord (sigma c) (tau o).
Hypothesis tau_perm : tau <$> neighbour_offsets ≡ₚ neighbour_offsets.

Lemma image_in_range (g : CellGrid) :
  coords_in_range g -> coords_in_range (image sigma g).
Proof.
  unfold image. revert g.
  apply (map_fold_weak_ind (fun (r : CellGrid) (m : CellGrid) =>
           coords_in_range m -> coords_in_range r)).
  - done.
  - intros i x m r Hi IH Hm.
    assert (Hi' : in_int_coord i) by (apply Hm; rewrite lookup_insert_eq; eauto).
    apply coords_in_range_insert; [by apply sigma_in_int|].
    apply IH. intros k [v Hv]. apply Hm.
    destruct (decide (i = k)) as [->|Hne]; [rewrite Hi in Hv; discriminate|].
    rewrite lookup_insert_ne by done. eauto.
Qed.

Lemma lookup_image (g : CellGrid) (c : Coord) :
  coords_in_range g -> in_int_coord c -> image sigma g !! c = g !! sigma c.
Proof.
  intros Hg Hc. unfold image. revert g Hg.
  apply (map_fold_weak_ind (fun (r : CellGrid) (m : CellGrid) =>
           coords_in_range m -> r !! c = m !! sigma c)).
  - intros _. by rewrite !lookup_empty.
  - intros i x m r Hi IH Hm.
    assert (Hi' : in_int_coord i) by (apply Hm; rewrite lookup_insert_eq; eauto).
    assert (Hm' : coords_in_range m).
    { intros k [v Hv]. apply Hm.
      destruct (decide (i = k)) as [->|Hne]; [rewrite Hi in Hv; discriminate|].
      rewrite lookup_insert_ne by done. eauto. }
    destruct (decide (sigma i = c)) as [<-|Hne].
    + by rewrite sigma_invol, !lookup_insert_eq.
    + rewrite lookup_insert_ne by done. rewrite IH by done.
      rewrite lookup_insert_ne; [done|].
      intros ->. apply Hne. by apply sigma_invol.
Qed.

Lemma count_image (g : CellGrid) (c : Coord) :
  coords_in_range g -> in_int_coord c ->
  count_active_neighbours (image sigma g) c
  = count_active_neighbours g (sigma c).
Proof.
  intros Hg Hc. rewrite !count_active_neighbours_length. f_equal.
  rewrite <- tau_perm at 2.
  assert (H : forall l, (forall o, o ∈ l -> o ∈ neighbour_offsets) ->
    length (filter (is_alive (image sigma g)) (offset_coord c <$> l))
    = length (filter (is_alive g) (offset_coord (sigma c) <$> (tau <$> l)))).
  { induction l as [|o l IH]; intros Hl; [done|].
    rewrite !fmap_cons.
    assert (Ho : is_alive (image sigma g) (offset_coord c o)
                 <-> is_alive g (offset_coord (sigma c) (tau o))).
    { unfold is_alive.
      rewrite lookup_image by (done || apply offset_coord_in_int).
      rewrite sigma_offset by (done || apply Hl; left). done. }
    specialize (IH (fun o' Ho' => Hl o' (list_elem_of_further _ _ _ Ho'))).
    destruct (decide (is_alive (image sigma g) (offset_coord c o))) as [Ha|Ha].
    - rewrite !filter_cons_True by tauto. simpl. by rewrite IH.
    - rewrite !filter_cons_False by tauto. done. }
  by apply H.
Qed.

Lemma advance_image (g : CellGrid) :
  coords_in_range g -> advance (image sigma g) = image sigma (advance g).
Proof.
  intros Hg. apply map_eq; intros c.
  destruct (decide (in_int_coord c)) as [Hc|Hc].
  - rewrite lookup_advance by (done || by apply image_in_range).
    rewrite lookup_image by (done || by apply advance_in_range).
    rewrite lookup_advance by (done || by apply sigma_in_int).
    unfold cell_lives. rewrite count_image by done.
    unfold grid_count. by rewrite lookup_image.
  - assert (E : advance (image sigma g) !! c = None).
    { apply eq_None_not_Some. intros H. apply Hc.
      apply (advance_in_range (image sigma g)); [by apply image_in_range|done]. }
    rewrite E. symmetry. apply eq_None_not_Some. intros H. apply Hc.
    apply (image_in_range (advance g)); [by apply advance_in_range|done].
Qed.
End symmetry.

Lemma transpose_offsets :
  transpose_coord <$> neighbour_offsets ≡ₚ neighbour_offsets.
Proof.
  apply NoDup_Permutation; [compute_done|compute_done|].
  intros [a b]. rewrite list_elem_of_fmap. split.
  - intros ([a' b'] & [= -> ->] & Ho). apply neighbour_offsets_spec in Ho.
    apply neighbour_offsets_spec. simpl in *.
    destruct Ho as (? & ? & Hne). repeat split; try lia.
    intros [= -> ->]. by apply Hne.
  - intros Ho. exists (b, a). split; [done|].
    apply neighbour_offsets_spec in Ho. apply neighbour_offsets_spec. simpl in *.
    destruct Ho as (? & ? & Hne). repeat split; try lia.
    intros [= -> ->]. by apply Hne.
Qed.

Lemma mirror_offsets :
  mirror_offset <$> neighbour_offsets ≡ₚ neighbour_offsets.
Proof.
  apply NoDup_Permutation; [compute_done|compute_done|].
  intros [a b]. rewrite list_elem_of_fmap. split.
  - intros ([a' b'] & [= -> ->] & Ho). apply neighbour_offsets_spec in Ho.
    apply neighbour_offsets_spec. simpl in *.
    destruct Ho as (? & ? & Hne). repeat split; try lia.
    intros [= ? ->]. apply Hne. f_equal. lia.
  - intros Ho. exists (- a, b). split; [unfold mirror_offset; simpl; f_equal; lia|].
    apply neighbour_offsets_spec in Ho. apply neighbour_offsets_spec. simpl in *.
    destruct Ho as (? & ? & Hne). repeat split; try lia.
    intros [= ? ->]. apply Hne. f_equal. lia.
Qed.

(** The rule treats rows and columns alike: the step commutes with
    exchanging the two coordinates of every cell. *)
Theorem update_grid_transpose (g : CellGrid) (n : Z) :
  coords_in_range g ->
  update_grid (image transpose_coord g) n
  = (image transpose_coord (update_grid g n).1, (update_grid g n).2).
Proof.
  intros Hg.
  rewrite (surjective_pairing (update_grid (image transpose_coord g) n)).
  rewrite !update_grid_fst.
  rewrite (advance_image transpose_coord transpose_coord); try done.
  - intros [x y] [Hx Hy]. by split.
  - by intros [x y] _.
  - apply transpose_offsets.
Qed.

Lemma update_grid_transpose_witness :
  update_grid (image transpose_coord (grid_of_cells [(0, 0); (1, 0); (2, 0)])) 1
  = (image transpose_coord
       (update_grid (grid_of_cells [(0, 0); (1, 0); (2, 0)]) 1).1,
     (update_grid (grid_of_cells [(0, 0); (1, 0); (2, 0)]) 1).2).
Proof.
  apply (update_grid_transpose (grid_of_cells [(0, 0); (1, 0); (2, 0)]) 1).
  apply three_in_a_row_in_range.
Defined.

(** The rule treats left and right alike: the step commutes with mirroring
    the grid in the column 0. *)
Theorem update_grid_mirror (g : CellGrid) (n : Z) :
  coords_in_range g ->
  update_grid (image mirror_coord g) n
  = (image mirror_coord (update_grid g n).1, (update_grid g n).2).
Proof.
  intros Hg.
  rewrite (surjective_pairing (update_grid (image mirror_coord g) n)).
  rewrite !update_grid_fst.
  rewrite (advance_image mirror_coord mirror_offset); try done.
  - intros [x y] [Hx Hy]. split; [apply wrap32_in_int|done].
  - intros [x y] [Hx Hy]. unfold mirror_coord; simpl. f_equal. wrap_arith.
  - intros [x y] [a b] [Hx Hy] _.
    unfold mirror_coord, mirror_offset, offset_coord; simpl. f_equal. wrap_arith.
  - apply mirror_offsets.
Qed.

Lemma update_grid_mirror_witness :
  update_grid (image mirror_coord (grid_of_cells [(0, 0); (1, 0); (2, 0)])) 1
  = (image mirror_coord
       (update_grid (grid_of_cells [(0, 0); (1, 0); (2, 0)]) 1).1,
     (update_grid (grid_of_cells [(0, 0); (1, 0); (2, 0)]) 1).2).
Proof.
  apply (update_grid_mirror (grid_of_cells [(0, 0); (1, 0); (2, 0)]) 1).
  apply three_in_a_row_in_range.
Defined.

Lemma reachable_rate_in_bounds_witness :
  reachable_rate (rate_slower (rate_faster (rate_faster f_0_2)))
  /\ f32_lt (rate_slower (rate_faster (rate_faster f_0_2))) f_0_01 = false
  /\ f32_lt f_2_0 (rate_slower (rate_faster (rate_faster f_0_2))) = false.
Proof.
  assert (H : reachable_rate (rate_slower (rate_faster (rate_faster f_0_2))))
    by (repeat constructor).
  exact (conj H (reachable_rate_in_bounds _ H)).
Defined.
